(** * Spherical k-means retrieval: cluster index and query resolver

    Shallow embedding of the two functions of [SphericalKMeans.ipynb],
    [create_cluster_index] and [search], together with the library
    routines they call (scikit-learn's [normalize] and
    [cosine_similarity], NumPy's [argmax], [argsort], slicing and fancy
    indexing).

    Floating-point arithmetic is not modelled bit by bit: the numeric
    kernel is an interface ([Scalar]) whose laws are the ones exact
    arithmetic satisfies and the proofs need; [argsort] is an interface
    ([Argsort]) that fixes only that the result is a sorting permutation,
    since NumPy's default sort is not stable.  Both interfaces are
    instantiated (canonical rationals, stable insertion sort) to run the
    code on concrete corpora. *)

From Stdlib Require Import QArith Qcanon Sorted Permutation Ascii String.
From stdpp Require Import gmap strings list fin_maps sorting.

Open Scope Z_scope.
Open Scope nat_scope.

(** ** Numeric kernel *)

Class Scalar (F : Type) := {
  fzero : F;
  fadd : F → F → F;
  fmul : F → F → F;
  fdiv : F → F → F;
  fsqrt : F → F;
  feqb : F → F → bool;
  fleb : F → F → bool;
  feqb_eq : ∀ x y, feqb x y = true ↔ x = y;
  fadd_zero_l : ∀ x, fadd fzero x = x;
  fmul_zero_l : ∀ x, fmul fzero x = fzero;
  fleb_total : ∀ x y, fleb x y = true ∨ fleb y x = true;
  fleb_trans : ∀ x y z, fleb x y = true → fleb y z = true → fleb x z = true
}.

(** [a < b] of the code: [not (b <= a)]. *)
Definition fltb {F} `{Scalar F} (x y : F) : bool := negb (fleb y x).

(** Canonical rationals; [fsqrt] is exact on squares of rationals. *)
Definition Qc_sqrt (x : Qc) : Qc :=
  Q2Qc (Z.sqrt (Qnum (this x)) # Pos.sqrt (Qden (this x))).

Definition Qc_eqb (x y : Qc) : bool := Qeq_bool (this x) (this y).
Definition Qc_leb (x y : Qc) : bool := Qle_bool (this x) (this y).


(** ** Errors and results

    The three Python exceptions the modelled code can raise. *)

Inductive error := KeyError | IndexError | ValueError.

Definition result (A : Type) : Type := error + A.

Definition rbind {A B} (r : result A) (f : A → result B) : result B :=
  match r with inl e => inl e | inr a => f a end.

(** [l[i]] on a Python list or a row selection on an array. *)
Definition getitem {A} (l : list A) (i : nat) : result A :=
  match l !! i with Some x => inr x | None => inl IndexError end.

(** [X[rows]]: fancy indexing by a list of positions. *)
Fixpoint take_rows {A} (X : list A) (rows : list nat) : result (list A) :=
  match rows with
  | [] => inr []
  | r :: rows' =>
      rbind (getitem X r) (λ x, rbind (take_rows X rows') (λ xs, inr (x :: xs)))
  end.

(** [a[start:]] with Python's treatment of negative and oversized bounds. *)
Definition slice_from {A} (start : Z) (a : list A) : list A :=
  let n := Z.of_nat (length a) in
  let s := if (start <? 0)%Z then Z.max (start + n) 0 else Z.min start n in
  drop (Z.to_nat s) a.

(** [str.lower], on ASCII letters. *)
Definition lower_ascii (c : ascii) : ascii :=
  let n := nat_of_ascii c in
  if (65 <=? n) && (n <=? 90) then ascii_of_nat (n + 32) else c.

Fixpoint lower (s : string) : string :=
  match s with
  | EmptyString => EmptyString
  | String c s' => String (lower_ascii c) (lower s')
  end.

(** ** scikit-learn and NumPy routines *)

Section Library.
Context {F : Type} `{Scalar F}.

(** A matrix is the list of its rows. *)
Definition ncols (M : list (list F)) : nat :=
  match M with [] => 0 | r :: _ => length r end.

(** [check_array]: at least one sample, at least one feature; a list of
    rows of unequal lengths is no array. *)
Definition check_array (M : list (list F)) : result (list (list F)) :=
  if (length M =? 0) || (ncols M =? 0)
     || negb (forallb (λ r, length r =? ncols M) M)
  then inl ValueError else inr M.

Definition dot (x y : list F) : F := foldl fadd fzero (zip_with fmul x y).

(** One row of [normalize(X)] with the default l2 norm: a row whose
    squared norm is zero is left as it is. *)
Definition normalize_row (v : list F) : list F :=
  let s := dot v v in
  if feqb s fzero then v else (λ x, fdiv x (fsqrt s)) <$> v.

Definition normalize (X : list (list F)) : result (list (list F)) :=
  rbind (check_array X) (λ X, inr (normalize_row <$> X)).

(** [cosine_similarity(X, Y)]: both arguments are checked, must agree on
    the number of columns, are l2-normalised, and multiplied. *)
Definition cosine_similarity (X Y : list (list F)) : result (list (list F)) :=
  rbind (check_array X) (λ X,
  rbind (check_array Y) (λ Y,
    if negb (ncols X =? ncols Y) then inl ValueError
    else
      let X_normalized := normalize_row <$> X in
      let Y_normalized := normalize_row <$> Y in
      inr ((λ x, (λ y, dot x y) <$> Y_normalized) <$> X_normalized))).

(** Cosine similarity of two rows, as [cosine_similarity] computes it. *)
Definition cosine (x y : list F) : F := dot (normalize_row x) (normalize_row y).

(** A row without a non-zero weight. *)
Definition all_zero (v : list F) : Prop := Forall (λ a, a = fzero) v.


(** [a.argmax()]: position of the first occurrence of the maximum. *)
Fixpoint argmax_from (best_i : nat) (best : F) (i : nat) (xs : list F) : nat :=
  match xs with
  | [] => best_i
  | x :: xs' =>
      if fltb best x then argmax_from i x (S i) xs'
      else argmax_from best_i best (S i) xs'
  end.

Definition argmax (xs : list F) : result nat :=
  match xs with
  | [] => inl ValueError
  | x :: xs' => inr (argmax_from 0 x 1 xs')
  end.

(** The value [argsort] compares at position [a]. *)
Definition key (a : list F) (i : nat) : F := default fzero (a !! i).

Definition key_le (a : list F) (i j : nat) : Prop :=
  fleb (key a i) (key a j) = true.

(** [np.argsort(a)]: a permutation of the positions along which the
    values do not decrease.  The order of equal values is not fixed. *)
Class Argsort := {
  argsort : list F → list nat;
  argsort_perm : ∀ a, argsort a ≡ₚ seq 0 (length a);
  argsort_sorted : ∀ a, StronglySorted (key_le a) (argsort a)
}.

(** Insertion sort on positions, the sort NumPy runs on short arrays;
    equal values keep their relative order. *)
Fixpoint insert_index (a : list F) (i : nat) (s : list nat) : list nat :=
  match s with
  | [] => [i]
  | j :: s' =>
      if fltb (key a i) (key a j) then i :: s
      else j :: insert_index a i s'
  end.

Definition stable_argsort (a : list F) : list nat :=
  foldl (λ s i, insert_index a i s) [] (seq 0 (length a)).
End Library.

Arguments Argsort F {_}.

(** ** The cluster index *)

(** [enumerate(clusters)] *)
Definition enumerate {A} (l : list A) : list (nat * A) := imap pair l.

(** One turn of the loop of [create_cluster_index]. *)
Definition index_step (cluster_index : gmap nat (list nat)) (ic : nat * nat)
    : gmap nat (list nat) :=
  let '(i, cluster) := ic in
  let cluster_index :=
    match cluster_index !! cluster with
    | None => <[cluster := []]> cluster_index
    | Some _ => cluster_index
    end in
  match cluster_index !! cluster with
  | Some members => <[cluster := members ++ [i]]> cluster_index
  | None => cluster_index
  end.

Definition create_cluster_index (clusters : list nat) : gmap nat (list nat) :=
  foldl index_step ∅ (enumerate clusters).

(** The positions of [clusters] labelled [c], in corpus order. *)
Definition members_of (c : nat) (clusters : list nat) : list nat :=
  fst <$> filter (λ ic, ic.2 = c) (enumerate clusters).

(** ** The post-fit state and the query monad *)

(** The fitted [KMeans] object, as far as the notebook reads it. *)
Record KMeans (F : Type) := {
  cluster_centers_ : list (list F);
  labels_ : list nat
}.
Arguments cluster_centers_ {F} _.
Arguments labels_ {F} _.

(** The objects [search] receives by reference. *)
Record Store (F : Type) := {
  tfidf_vectorizer : string → list F;
  kmeans_model : KMeans F;
  normalized_vectors : list (list F);
  cluster_index : gmap nat (list nat);
  articles_titles : list string
}.
Arguments tfidf_vectorizer {F} _.
Arguments kmeans_model {F} _.
Arguments normalized_vectors {F} _.
Arguments cluster_index {F} _.
Arguments articles_titles {F} _.

(** A computation over the store that may raise. *)
Definition M (F A : Type) : Type := Store F → result A * Store F.

Definition ret {F A} (a : A) : M F A := λ st, (inr a, st).

Definition bind {F A B} (m : M F A) (f : A → M F B) : M F B :=
  λ st, match m st with
        | (inl e, st') => (inl e, st')
        | (inr a, st') => f a st'
        end.

Definition gets {F A} (f : Store F → A) : M F A := λ st, (inr (f st), st).

Definition lift {F A} (r : result A) : M F A := λ st, (r, st).

#[export] Instance M_ret {F} : MRet (M F) := λ A, ret.
#[export] Instance M_bind {F} : MBind (M F) := λ A B f m, bind m f.

Definition eval {F A} (m : M F A) (st : Store F) : result A := fst (m st).

(** A computation that leaves the store as it found it. *)
Definition read_only {F A} (m : M F A) : Prop := ∀ st, snd (m st) = st.

(** ** The query resolver *)

Section Search.
Context {F : Type} `{Scalar F} `{!Argsort F}.

(** "Vectorize and normalize query" *)
Definition vectorize_query (query : string) : M F (list (list F)) :=
  let query := lower query in
  transform ← gets tfidf_vectorizer;
  let query_vector := [transform query] in
  lift (normalize query_vector).

(** "Identify the most relevant cluster" *)
Definition most_relevant_cluster (normalized_query_vector : list (list F))
    : M F nat :=
  kmeans_model ← gets kmeans_model;
  let cluster_centroids := cluster_centers_ kmeans_model in
  query_cluster_similarities ←
    lift (cosine_similarity normalized_query_vector cluster_centroids);
  lift (argmax (concat query_cluster_similarities)).

(** [cluster_index[most_relevant_cluster]] *)
Definition docs_in_cluster (cluster : nat) : M F (list nat) :=
  cluster_index ← gets cluster_index;
  lift (match cluster_index !! cluster with
        | Some members => inr members
        | None => inl KeyError
        end).

(** "Find the most similar documents within the cluster": the members of
    the cluster and the positions, in that list, of the documents to
    return. *)
Definition rank (query : string) (top_n : Z) : M F (list nat * list nat) :=
  normalized_query_vector ← vectorize_query query;
  most_relevant_cluster ← most_relevant_cluster normalized_query_vector;
  docs_in_relevant_cluster ← docs_in_cluster most_relevant_cluster;
  normalized_vectors ← gets normalized_vectors;
  rows ← lift (take_rows normalized_vectors docs_in_relevant_cluster);
  sims ← lift (cosine_similarity normalized_query_vector rows);
  let doc_similarities := concat sims in
  let most_similar_docs_indices :=
    reverse (slice_from (- top_n) (argsort doc_similarities)) in
  ret (docs_in_relevant_cluster, most_similar_docs_indices).

(** The cluster chosen for a query: the first two steps of [search]. *)
Definition selected_cluster (query : string) : M F nat :=
  normalized_query_vector ← vectorize_query query;
  most_relevant_cluster normalized_query_vector.

(** The document indices behind the returned titles:
    [docs_in_relevant_cluster[idx] for idx in most_similar_docs_indices]. *)
Definition search_docs (query : string) (top_n : Z) : M F (list nat) :=
  '(docs_in_relevant_cluster, most_similar_docs_indices) ← rank query top_n;
  mapM (λ idx, lift (getitem docs_in_relevant_cluster idx))
       most_similar_docs_indices.

(** [search(query, tfidf_vectorizer, kmeans_model, normalized_vectors,
    cluster_index, articles_titles, top_n)] *)
Definition search (query : string) (top_n : Z) : M F (list string) :=
  '(docs_in_relevant_cluster, most_similar_docs_indices) ← rank query top_n;
  mapM (λ idx,
          doc ← lift (getitem docs_in_relevant_cluster idx);
          articles_titles ← gets articles_titles;
          lift (getitem articles_titles doc))
       most_similar_docs_indices.
End Search.

(** ** Notions the statements use *)

Section Notions.
Context {F : Type} `{Scalar F}.
Implicit Types (st : Store F) (query : string).

(** The vector the vectorizer gives for the lower-cased query. *)
Definition query_vector st query : list F := tfidf_vectorizer st (lower query).

(** Similarity of the query to document [d], as [search] computes it. *)
Definition doc_similarity st query (d : nat) : F :=
  cosine (normalize_row (query_vector st query))
         (default [] (normalized_vectors st !! d)).

(** Similarities of the query to the centroids, by cluster id. *)
Definition centroid_similarities st query : list F :=
  cosine (normalize_row (query_vector st query))
    <$> cluster_centers_ (kmeans_model st).

(** [d] is ranked no later than [e]: [e] is not more similar to the query. *)
Definition ranked_before st query (d e : nat) : Prop :=
  fleb (doc_similarity st query e) (doc_similarity st query d) = true.

(** The shapes [cosine_similarity] accepts for the query and the centroids:
    a query vector with a column, a centroid, and one dimensionality. *)
Definition shape_ok st query : Prop :=
  query_vector st query ≠ [] ∧
  cluster_centers_ (kmeans_model st) ≠ [] ∧
  Forall (λ r, length r = length (query_vector st query))
         (cluster_centers_ (kmeans_model st)).

(** What the notebook's cells establish before the first query: one
    dimensionality for queries, documents and centroids, at least one
    centroid, a label and a title per document, and the index built from
    the labels. *)
Definition fitted st : Prop :=
  ∃ D, D ≠ 0 ∧
    (∀ text, length (tfidf_vectorizer st text) = D) ∧
    Forall (λ r, length r = D) (normalized_vectors st) ∧
    Forall (λ r, length r = D) (cluster_centers_ (kmeans_model st)) ∧
    cluster_centers_ (kmeans_model st) ≠ [] ∧
    length (labels_ (kmeans_model st)) = length (normalized_vectors st) ∧
    length (articles_titles st) = length (normalized_vectors st) ∧
    cluster_index st = create_cluster_index (labels_ (kmeans_model st)).
End Notions.

(** ** Loading the articles *)

(** A decoded JSON value, as far as [load_and_preprocess] tells values
    apart: a string, or anything else. *)
Inductive jvalue := JStr (s : string) | JOther.

(** The exceptions the loop of [load_and_preprocess] can raise on a decoded
    line: [KeyError] for an absent field, [TypeError] for concatenating a
    value that is no string. *)
Inductive load_error := MissingKey | NotAString.

Definition lbind {A B} (r : load_error + A) (f : A → load_error + B)
    : load_error + B :=
  match r with inl e => inl e | inr a => f a end.

(** [article[key]] *)
Definition field (article : gmap string jvalue) (key : string)
    : load_error + jvalue :=
  match article !! key with Some v => inr v | None => inl MissingKey end.

(** The operand of a string concatenation: [+] raises [TypeError] on a
    value that is no string. *)
Definition as_str (v : jvalue) : load_error + string :=
  match v with JStr s => inr s | JOther => inl NotAString end.

(** One turn of the loop: [article['title'] + " " + article['text']] is
    evaluated left to right, then both lists are appended to. *)
Definition load_step (acc : list string * list string)
    (article : gmap string jvalue) : load_error + (list string * list string) :=
  let '(articles_text, articles_titles) := acc in
  lbind (field article "title") (λ title,
  lbind (as_str title) (λ title,
  lbind (field article "text") (λ text,
  lbind (as_str text) (λ text,
    let combined_text := String.append (String.append title " ") text in
    inr (articles_text ++ [combined_text], articles_titles ++ [title]))))).

Fixpoint load_loop (acc : list string * list string)
    (articles : list (gmap string jvalue))
    : load_error + (list string * list string) :=
  match articles with
  | [] => inr acc
  | article :: articles' =>
      lbind (load_step acc article) (λ acc', load_loop acc' articles')
  end.

(** [load_and_preprocess], from the decoded lines of the archive's first
    member on: opening the archive and [json.loads] are outside the model,
    and every line is taken to decode to an object. *)
Definition load_and_preprocess (articles : list (gmap string jvalue))
    : load_error + (list string * list string) :=
  load_loop ([], []) articles.

(** An article the loop accepts: its title and its text are strings. *)
Definition article_of (title text : string) (article : gmap string jvalue) : Prop :=
  article !! "title"%string = Some (JStr title) ∧
  article !! "text"%string = Some (JStr text).


(** ** The cells between the loader and the first query *)

Section Pipeline.
Context {F : Type} `{Scalar F}.

(** Vectorize, normalize, cluster, index.  [fit_transform] stands for
    [TfidfVectorizer(stop_words='english').fit_transform], which returns the
    term-weight matrix and leaves the vectorizer fitted; [kmeans_fit] for
    [KMeans(n_clusters=5, random_state=42, n_init=10).fit].  Both are
    library code and are parameters here. *)
Definition fit_index
    (fit_transform : list string → result ((string → list F) * list (list F)))
    (kmeans_fit : list (list F) → result (KMeans F))
    (articles_text articles_titles : list string) : result (Store F) :=
  rbind (fit_transform articles_text) (λ fitted_vectorizer,
  let tfidf_vectorizer := fitted_vectorizer.1 in
  let tfidf_matrix := fitted_vectorizer.2 in
  rbind (normalize tfidf_matrix) (λ normalized_vectors,
  rbind (kmeans_fit normalized_vectors) (λ kmeans,
  let clusters := labels_ kmeans in
  let cluster_index := create_cluster_index clusters in
  inr {| tfidf_vectorizer := tfidf_vectorizer;
         kmeans_model := kmeans;
         normalized_vectors := normalized_vectors;
         cluster_index := cluster_index;
         articles_titles := articles_titles |}))).

(** What the vectorizer promises: a row per text, and query vectors over
    the vocabulary of the matrix. *)
Definition vectorizer_contract
    (fit_transform : list string → result ((string → list F) * list (list F)))
    : Prop :=
  ∀ texts transform matrix,
    fit_transform texts = inr (transform, matrix) →
    length matrix = length texts ∧
    ∀ text, length (transform text) = ncols matrix.

(** What the clustering promises: a label per row, and at least one
    centroid, each of the dimensionality of the rows. *)
Definition kmeans_contract (kmeans_fit : list (list F) → result (KMeans F))
    : Prop :=
  ∀ X kmeans,
    kmeans_fit X = inr kmeans →
    length (labels_ kmeans) = length X ∧
    cluster_centers_ kmeans ≠ [] ∧
    Forall (λ r, length r = ncols X) (cluster_centers_ kmeans).
End Pipeline.

(** ** Two small corpora *)

#[local] Open Scope string_scope.

Definition q (z : Z) : Qc := Q2Qc (inject_Z z).

(** A vectorizer with the vocabulary {cat, stock}; any other text has no
    known term. *)
Definition toy_vectorizer (text : string) : list Qc :=
  if String.eqb text "cat" then [q 1; q 0]
  else if String.eqb text "stock" then [q 0; q 1]
  else [q 0; q 0].

Definition two_topic_model : KMeans Qc := {|
  cluster_centers_ := [[q 1; q 0]; [q 0; q 1]];
  labels_ := [0; 0; 1]
|}.

(** Two animal documents and one finance document. *)
Definition two_topic_store : Store Qc := {|
  tfidf_vectorizer := toy_vectorizer;
  kmeans_model := two_topic_model;
  normalized_vectors := [[q 1; q 0]; [q 1; q 0]; [q 0; q 1]];
  cluster_index := create_cluster_index (labels_ two_topic_model);
  articles_titles := ["Cat"; "Dog"; "Bank"]
|}.

Definition one_sided_model : KMeans Qc := {|
  cluster_centers_ := [[q 1; q 0]; [q 0; q 1]];
  labels_ := [1; 1]
|}.

(** Two centroids, but both documents are labelled with cluster 1. *)
Definition one_sided_store : Store Qc := {|
  tfidf_vectorizer := toy_vectorizer;
  kmeans_model := one_sided_model;
  normalized_vectors := [[q 0; q 1]; [q 0; q 1]];
  cluster_index := create_cluster_index (labels_ one_sided_model);
  articles_titles := ["Bank"; "Broker"]
|}.

(** One cluster whose three documents are at different angles to "cat". *)
Definition graded_model : KMeans Qc := {|
  cluster_centers_ := [[q 1; q 1]];
  labels_ := [0; 0; 0]
|}.

Definition graded_store : Store Qc := {|
  tfidf_vectorizer := toy_vectorizer;
  kmeans_model := graded_model;
  normalized_vectors :=
    [[q 0; q 1]; [q 1; q 0]; [Q2Qc (3 # 5); Q2Qc (4 # 5)]];
  cluster_index := create_cluster_index (labels_ graded_model);
  articles_titles := ["Bank"; "Cat"; "Pet shop"]
|}.

(** Centroids of three dimensions against a two-dimensional vocabulary. *)
Definition mismatched_store : Store Qc := {|
  tfidf_vectorizer := toy_vectorizer;
  kmeans_model := {| cluster_centers_ := [[q 1; q 0; q 0]]; labels_ := [0] |};
  normalized_vectors := [[q 1; q 0]];
  cluster_index := create_cluster_index [0];
  articles_titles := ["Cat"]
|}.

(** Three decoded lines; the third has no text. *)
Definition cat_article : gmap string jvalue :=
  {[ "title" := JStr "Cat"; "text" := JStr "cat pet"; "id" := JOther ]}.
Definition bank_article : gmap string jvalue :=
  {[ "title" := JStr "Bank"; "text" := JStr "stock market" ]}.
Definition stub_article : gmap string jvalue :=
  {[ "title" := JStr "Stub" ]}.

(** Stand-ins for the two library fits, on the toy vocabulary. *)
Definition toy_fit_transform (texts : list string)
    : result ((string → list Qc) * list (list Qc)) :=
  match texts with
  | [] => inl ValueError
  | _ => inr (toy_vectorizer, toy_vectorizer <$> texts)
  end.

Definition toy_kmeans_fit (X : list (list Qc)) : result (KMeans Qc) :=
  if (ncols X =? 2)%nat
  then inr {| cluster_centers_ := [[q 1; q 0]; [q 0; q 1]];
              labels_ := (λ _, 0) <$> X |}
  else inl ValueError.

#[local] Close Scope string_scope.

(** * Properties *)

(** ** Canonical rationals are a numeric kernel *)

Lemma Qc_eqb_eq (x y : Qc) : Qc_eqb x y = true ↔ x = y.
Proof.
  unfold Qc_eqb. rewrite Qeq_bool_iff. split.
  - apply Qc_is_canon.
  - intros ->. reflexivity.
Qed.

Lemma Qc_leb_total (x y : Qc) : Qc_leb x y = true ∨ Qc_leb y x = true.
Proof.
  unfold Qc_leb. rewrite !Qle_bool_iff.
  destruct (Qlt_le_dec (this x) (this y)) as [Hlt | Hle].
  - left. apply Qlt_le_weak, Hlt.
  - right. exact Hle.
Qed.

Lemma Qc_leb_trans (x y z : Qc) :
  Qc_leb x y = true → Qc_leb y z = true → Qc_leb x z = true.
Proof. unfold Qc_leb. rewrite !Qle_bool_iff. apply Qle_trans. Qed.

#[export] Instance Qc_scalar : Scalar Qc := {|
  fzero := Q2Qc 0;
  fadd := Qcplus;
  fmul := Qcmult;
  fdiv := Qcdiv;
  fsqrt := Qc_sqrt;
  feqb := Qc_eqb;
  fleb := Qc_leb;
  feqb_eq := Qc_eqb_eq;
  fadd_zero_l := Qcplus_0_l;
  fmul_zero_l := Qcmult_0_l;
  fleb_total := Qc_leb_total;
  fleb_trans := Qc_leb_trans
|}.

(** ** The stable insertion sort is an [argsort] *)

Section StableArgsort.
Context {F : Type} `{Scalar F}.

Lemma fltb_true_fleb (x y : F) : fltb x y = true → fleb x y = true.
Proof.
  unfold fltb. intros Hlt. apply negb_true_iff in Hlt.
  destruct (fleb_total x y) as [Hxy | Hyx]; [exact Hxy | congruence].
Qed.

Lemma fltb_false_fleb (x y : F) : fltb x y = false → fleb y x = true.
Proof. unfold fltb. intros Hlt. by apply negb_false_iff in Hlt. Qed.

Lemma fleb_refl (x : F) : fleb x x = true.
Proof. by destruct (fleb_total x x). Qed.

Lemma fleb_fltb_trans (x y z : F) :
  fleb x y = true → fltb y z = true → fltb x z = true.
Proof.
  unfold fltb. rewrite !negb_true_iff. intros Hxy Hyz.
  destruct (fleb z x) eqn:Hzx; [| done].
  rewrite <- Hyz. symmetry. by eapply fleb_trans.
Qed.

Lemma key_le_trans (a : list F) (i j k : nat) :
  key_le a i j → key_le a j k → key_le a i k.
Proof. unfold key_le. apply fleb_trans. Qed.

Lemma insert_index_perm (a : list F) (i : nat) (s : list nat) :
  insert_index a i s ≡ₚ i :: s.
Proof.
  induction s as [| j s IH]; simpl; [done |].
  destruct (fltb _ _); [done |].
  rewrite IH. apply Permutation_swap.
Qed.

Lemma insert_index_sorted (a : list F) (i : nat) (s : list nat) :
  StronglySorted (key_le a) s → StronglySorted (key_le a) (insert_index a i s).
Proof.
  induction 1 as [| j s Hs IH Hj]; simpl.
  - repeat constructor.
  - destruct (fltb (key a i) (key a j)) eqn:Hlt.
    + apply fltb_true_fleb in Hlt.
      constructor; [by constructor |].
      constructor; [exact Hlt |].
      eapply Forall_impl; [exact Hj |].
      intros k Hk. by eapply key_le_trans.
    + apply fltb_false_fleb in Hlt.
      constructor; [exact IH |].
      rewrite insert_index_perm. by constructor.
Qed.

Lemma stable_argsort_loop_perm (a : list F) (l acc : list nat) :
  foldl (λ s i, insert_index a i s) acc l ≡ₚ l ++ acc.
Proof.
  revert acc. induction l as [| i l IH]; intros acc; simpl; [done |].
  rewrite IH, insert_index_perm. by rewrite Permutation_middle.
Qed.

Lemma stable_argsort_loop_sorted (a : list F) (l acc : list nat) :
  StronglySorted (key_le a) acc →
  StronglySorted (key_le a) (foldl (λ s i, insert_index a i s) acc l).
Proof.
  revert acc. induction l as [| i l IH]; intros acc Hacc; simpl; [done |].
  by apply IH, insert_index_sorted.
Qed.

Lemma stable_argsort_perm (a : list F) :
  stable_argsort a ≡ₚ seq 0 (length a).
Proof.
  unfold stable_argsort. rewrite stable_argsort_loop_perm.
  by rewrite app_nil_r.
Qed.

Lemma stable_argsort_sorted (a : list F) :
  StronglySorted (key_le a) (stable_argsort a).
Proof. apply stable_argsort_loop_sorted. constructor. Qed.

Definition stable_Argsort : Argsort F := {|
  argsort := stable_argsort;
  argsort_perm := stable_argsort_perm;
  argsort_sorted := stable_argsort_sorted
|}.
End StableArgsort.

(** ** Computations that only read the store *)

Section ReadOnly.
Context {F : Type}.

Lemma read_only_ret {A} (a : A) : read_only (mret a : M F A).
Proof. by intros st. Qed.

Lemma read_only_gets {A} (f : Store F → A) : read_only (gets f).
Proof. by intros st. Qed.

Lemma read_only_lift {A} (r : result A) : read_only (lift r : M F A).
Proof. by intros st. Qed.

Lemma read_only_bind {A B} (m : M F A) (f : A → M F B) :
  read_only m → (∀ a, read_only (f a)) → read_only (m ≫= f).
Proof.
  intros Hm Hf st. unfold mbind, M_bind, bind.
  specialize (Hm st). destruct (m st) as [[e | a] st']; simpl in *; subst.
  - done.
  - apply Hf.
Qed.

Lemma read_only_mapM {A B} (f : A → M F B) (l : list A) :
  (∀ a, read_only (f a)) → read_only (mapM f l).
Proof.
  intros Hf. induction l as [| a l IH]; simpl.
  - apply read_only_ret.
  - apply read_only_bind; [apply Hf |]. intros b.
    apply read_only_bind; [apply IH |]. intros bs. apply read_only_ret.
Qed.

Lemma eval_bind {A B} (m : M F A) (f : A → M F B) (st : Store F) :
  read_only m → eval (m ≫= f) st = rbind (eval m st) (λ a, eval (f a) st).
Proof.
  intros Hm. unfold eval, mbind, M_bind, bind.
  specialize (Hm st). destruct (m st) as [[e | a] st']; simpl in *; by subst.
Qed.

Lemma eval_lift {A} (r : result A) (st : Store F) : eval (lift r) st = r.
Proof. done. Qed.

Lemma eval_gets {A} (f : Store F → A) (st : Store F) :
  eval (gets f) st = inr (f st).
Proof. done. Qed.

Lemma eval_ret {A} (a : A) (st : Store F) : eval (mret a : M F A) st = inr a.
Proof. done. Qed.
End ReadOnly.

Create HintDb read_only.
#[global] Hint Resolve read_only_ret read_only_gets read_only_lift
  read_only_bind read_only_mapM : read_only.

(** ** Results of list selection *)

Section Selection.
Context {A : Type}.
Implicit Types (X : list A) (rows : list nat).

Lemma getitem_inr X i x : getitem X i = inr x ↔ X !! i = Some x.
Proof. unfold getitem. destruct (X !! i); naive_solver. Qed.

Lemma getitem_inl X i e : getitem X i = inl e → e = IndexError.
Proof. unfold getitem. destruct (X !! i); naive_solver. Qed.

Lemma take_rows_inl X rows e : take_rows X rows = inl e → e = IndexError.
Proof.
  induction rows as [| r rows IH]; simpl; [done |].
  destruct (getitem X r) eqn:Hr; simpl.
  - intros [= <-]. by eapply getitem_inl.
  - destruct (take_rows X rows); simpl; [| done].
    intros [= <-]. by apply IH.
Qed.

(** A selection succeeds exactly when every position is in range, and
    then reads the positions off in order. *)
Lemma take_rows_inr X rows xs :
  take_rows X rows = inr xs ↔ Forall2 (λ r x, X !! r = Some x) rows xs.
Proof.
  revert xs. induction rows as [| r rows IH]; intros xs; simpl.
  - split; [intros [= <-]; constructor | by inversion 1].
  - unfold getitem. destruct (X !! r) as [x |] eqn:Hr; simpl.
    + destruct (take_rows X rows) as [e | xs'] eqn:Hrows; simpl.
      * split; [done |]. inversion 1; subst.
        match goal with H : Forall2 _ rows _ |- _ => apply IH in H end.
        done.
      * split.
        -- intros [= <-]. constructor; [done | by apply IH].
        -- inversion 1 as [| ? x' ? xs'' Hx Hxs]; subst.
           apply IH in Hxs. congruence.
    + split; [done |]. inversion 1; subst. congruence.
Qed.

Lemma take_rows_length X rows xs :
  take_rows X rows = inr xs → length xs = length rows.
Proof. rewrite take_rows_inr. intros Hxs. by apply Forall2_length in Hxs. Qed.

Lemma take_rows_in_range X rows :
  Forall (λ r, r < length X) rows → ∃ xs, take_rows X rows = inr xs.
Proof.
  induction 1 as [| r rows Hr _ [xs IH]]; simpl; [by eexists |].
  apply lookup_lt_is_Some in Hr as [x Hx].
  unfold getitem. rewrite Hx, IH. simpl. by eexists.
Qed.

Lemma take_rows_elem_of X rows xs x :
  take_rows X rows = inr xs → x ∈ xs → x ∈ X.
Proof.
  rewrite take_rows_inr. intros Hxs Hx.
  apply list_elem_of_lookup in Hx as [i Hi].
  destruct (Forall2_lookup_r _ _ _ _ _ Hxs Hi) as (r & _ & Hr).
  by eapply list_elem_of_lookup_2.
Qed.
End Selection.

(** ** Facts about the library routines *)

Section LibraryFacts.
Context {F : Type} `{Scalar F}.
Implicit Types (x v : list F) (X Y : list (list F)).

Lemma check_array_inr X X' :
  check_array X = inr X' ↔
  X' = X ∧ X ≠ [] ∧ ncols X ≠ 0 ∧ Forall (λ r, length r = ncols X) X.
Proof.
  unfold check_array.
  destruct (length X =? 0) eqn:Hlen; simpl.
  { apply Nat.eqb_eq in Hlen. destruct X; [| done].
    split; [done | by intros (_ & ? & _)]. }
  apply Nat.eqb_neq in Hlen.
  destruct (ncols X =? 0) eqn:Hcols; simpl.
  { apply Nat.eqb_eq in Hcols. split; [done | by intros (_ & _ & ? & _)]. }
  apply Nat.eqb_neq in Hcols.
  destruct (forallb _ X) eqn:Hrows; simpl.
  - rewrite forallb_forall in Hrows. split; [intros [= <-] | by intros (-> & _)].
    split_and!; [done | by destruct X | done |].
    apply Forall_forall. intros r Hr. apply Nat.eqb_eq, Hrows.
    by apply list_elem_of_In.
  - split; [done |]. intros (_ & _ & _ & Hall). exfalso.
    assert (forallb (λ r, length r =? ncols X) X = true) as Hb; [| congruence].
    apply forallb_forall. intros r Hr. apply Nat.eqb_eq.
    rewrite Forall_forall in Hall. by apply Hall, list_elem_of_In.
Qed.

Lemma check_array_inl X e : check_array X = inl e → e = ValueError.
Proof. unfold check_array. case_match; naive_solver. Qed.

Lemma normalize_row_length v : length (normalize_row v) = length v.
Proof. unfold normalize_row. case_match; [done | by rewrite length_fmap]. Qed.

Lemma normalize_single v X :
  normalize [v] = inr X ↔ X = [normalize_row v] ∧ v ≠ [].
Proof.
  unfold normalize. destruct (check_array [v]) as [e | X'] eqn:Hv; simpl.
  - split; [done |]. intros [_ Hne]. exfalso.
    assert (check_array [v] = inr [v]) as Hok; [| congruence].
    apply check_array_inr. split_and!; [done | done | | by repeat constructor].
    simpl. by destruct v.
  - apply check_array_inr in Hv as (-> & _ & Hcols & _).
    simpl in Hcols. split; [intros [= <-] | by intros [-> _]].
    split; [done |]. by intros ->.
Qed.

Lemma cosine_similarity_single x Y S :
  cosine_similarity [x] Y = inr S ↔
  S = [cosine x <$> Y] ∧ x ≠ [] ∧ Y ≠ [] ∧ Forall (λ r, length r = length x) Y.
Proof.
  unfold cosine_similarity.
  destruct (check_array [x]) as [e | X'] eqn:Hx; simpl.
  { split; [done |]. intros (_ & Hne & _). exfalso.
    assert (check_array [x] = inr [x]) as Hok; [| congruence].
    apply check_array_inr. split_and!; [done | done | | by repeat constructor].
    simpl. by destruct x. }
  apply check_array_inr in Hx as (-> & _ & Hcols & _). simpl in Hcols.
  assert (x ≠ []) as Hxne by (by intros ->).
  destruct (check_array Y) as [e | Y'] eqn:HY; simpl.
  { split; [done |]. intros (_ & _ & HYne & Hall). exfalso.
    assert (check_array Y = inr Y) as Hok; [| congruence].
    apply check_array_inr.
    assert (ncols Y = length x) as Hn.
    { destruct Y as [| r Y]; [done |]. simpl. by inversion Hall. }
    split_and!; [done | done | by rewrite Hn | by rewrite Hn]. }
  apply check_array_inr in HY as (-> & HYne & HYcols & Hall).
  simpl. destruct (length x =? ncols Y) eqn:Hdim; simpl.
  - apply Nat.eqb_eq in Hdim. rewrite <- Hdim in Hall.
    rewrite <- list_fmap_compose.
    split; [by intros [= <-] | by intros (-> & _)].
  - apply Nat.eqb_neq in Hdim. split; [done |].
    intros (_ & _ & _ & Hall'). exfalso. apply Hdim.
    destruct Y as [| r Y]; [done |]. simpl. by inversion Hall'.
Qed.

(** The running maximum of [argmax]: [pre] is the part already scanned,
    [best] its first greatest value and [best_i] the position of it. *)
Lemma argmax_from_spec (pre xs : list F) (best_i : nat) (best : F) :
  pre !! best_i = Some best →
  (∀ j y, pre !! j = Some y → fleb y best = true) →
  (∀ j y, pre !! j = Some y → j < best_i → fltb y best = true) →
  let c := argmax_from best_i best (length pre) xs in
  ∃ top, (pre ++ xs) !! c = Some top ∧
    (∀ j y, (pre ++ xs) !! j = Some y → fleb y top = true) ∧
    (∀ j y, (pre ++ xs) !! j = Some y → j < c → fltb y top = true).
Proof.
  revert pre best_i best. induction xs as [| x xs IH]; intros pre best_i best.
  - simpl. rewrite app_nil_r. naive_solver.
  - intros Hbest Hle Hlt. simpl.
    replace (pre ++ x :: xs) with ((pre ++ [x]) ++ xs) by by rewrite <- app_assoc.
    replace (S (length pre)) with (length (pre ++ [x]))
      by (rewrite length_app; simpl; lia).
    assert (best_i < length pre) as Hin by by eapply lookup_lt_Some.
    destruct (fltb best x) eqn:Hcmp.
    + apply (IH (pre ++ [x]) (length pre) x).
      * by apply list_lookup_middle.
      * intros j y Hj. apply lookup_app_Some in Hj as [Hj | [_ Hj]].
        -- eapply fleb_trans; [by eapply Hle |]. by apply fltb_true_fleb.
        -- apply list_lookup_singleton_Some in Hj as [_ <-]. apply fleb_refl.
      * intros j y Hj Hjlt. apply lookup_app_Some in Hj as [Hj | [Hge _]]; [| lia].
        eapply fleb_fltb_trans; [by eapply Hle | done].
    + apply fltb_false_fleb in Hcmp. apply (IH (pre ++ [x]) best_i best).
      * by apply lookup_app_l_Some.
      * intros j y Hj. apply lookup_app_Some in Hj as [Hj | [_ Hj]].
        -- by eapply Hle.
        -- by apply list_lookup_singleton_Some in Hj as [_ <-].
      * intros j y Hj Hjlt. apply lookup_app_Some in Hj as [Hj | [Hge _]].
        -- by eapply Hlt.
        -- lia.
Qed.

Lemma argmax_spec (xs : list F) :
  xs ≠ [] →
  ∃ c top, argmax xs = inr c ∧ xs !! c = Some top ∧
    (∀ j y, xs !! j = Some y → fleb y top = true) ∧
    (∀ j y, xs !! j = Some y → j < c → fltb y top = true).
Proof.
  destruct xs as [| x xs]; [done |]. intros _. simpl.
  destruct (argmax_from_spec [x] xs 0 x) as (top & Htop & Hle & Hlt).
  - done.
  - intros [| j] y; simpl; [| done]. intros [= <-]. apply fleb_refl.
  - intros j y _ Hj. lia.
  - exists (argmax_from 0 x 1 xs), top. done.
Qed.
End LibraryFacts.

(** ** Slices and sorted lists *)

Section Slices.
Context {A : Type}.
Implicit Types (a : list A).

Lemma slice_from_drop (start : Z) a : ∃ k, slice_from start a = drop k a.
Proof. unfold slice_from. by eexists. Qed.

(** [a[-n:]] for [n >= 1] keeps the last [min n (len a)] elements. *)
Lemma slice_from_last (n : Z) a :
  (1 ≤ n)%Z → slice_from (- n) a = drop (length a - Z.to_nat n) a.
Proof.
  intros Hn. unfold slice_from.
  destruct (- n <? 0)%Z eqn:Hneg; [| apply Z.ltb_ge in Hneg; lia].
  f_equal. lia.
Qed.

(** [a[-0:]] is [a[0:]]: the whole list. *)
Lemma slice_from_zero a : slice_from (- 0) a = a.
Proof. unfold slice_from. simpl. by rewrite Z.min_l by lia. Qed.

Lemma slice_from_all (n : Z) a :
  (Z.of_nat (length a) < n)%Z → slice_from (- n) a = a.
Proof.
  intros Hn. rewrite slice_from_last by lia.
  by replace (length a - Z.to_nat n) with 0 by lia.
Qed.

Lemma drop_sorted (R : relation A) (k : nat) a :
  StronglySorted R a → StronglySorted R (drop k a).
Proof.
  intros Ha. rewrite <- (take_drop k a) in Ha.
  by apply StronglySorted_app_1_r in Ha.
Qed.

Lemma reverse_sorted (R : relation A) a :
  StronglySorted R a → StronglySorted (flip R) (reverse a).
Proof.
  induction 1 as [| x a Ha IH Hx]; [constructor |].
  rewrite reverse_cons. apply StronglySorted_app_2; [| done | by repeat constructor].
  intros y z Hy Hz. apply list_elem_of_singleton in Hz as ->.
  rewrite elem_of_reverse in Hy. rewrite Forall_forall in Hx.
  unfold flip. by apply Hx.
Qed.

(** Sortedness carries along a pointwise relation between two lists. *)
Lemma Forall2_sorted {B} (P : A → B → Prop) (R : relation A) (R' : relation B)
    a (b : list B) :
  (∀ x x' y y', P x y → P x' y' → R x x' → R' y y') →
  Forall2 P a b → StronglySorted R a → StronglySorted R' b.
Proof.
  intros HR. induction 1 as [| x y a b Hxy Hab IH]; [constructor |].
  intros Ha. apply StronglySorted_inv in Ha as [Ha Hx].
  constructor; [by apply IH |].
  clear IH Ha. induction Hab as [| x' y' a b Hxy' Hab IH]; [constructor |].
  apply Forall_cons in Hx as [Hxx' Hx].
  constructor; [by eapply HR | by apply IH].
Qed.
End Slices.

(** ** The stages of [search] *)

Section SearchFacts.
Context {F : Type} `{Scalar F} `{!Argsort F}.
Implicit Types (st : Store F) (query : string) (top_n : Z).

Lemma vectorize_query_read_only query : read_only (vectorize_query query).
Proof. unfold vectorize_query. eauto with read_only. Qed.

Lemma most_relevant_cluster_read_only X : read_only (most_relevant_cluster X).
Proof. unfold most_relevant_cluster. eauto 6 with read_only. Qed.

Lemma docs_in_cluster_read_only c :
  read_only (docs_in_cluster c : M F (list nat)).
Proof. unfold docs_in_cluster. eauto with read_only. Qed.

Hint Resolve vectorize_query_read_only most_relevant_cluster_read_only
  docs_in_cluster_read_only : read_only.

Lemma selected_cluster_read_only query : read_only (selected_cluster query).
Proof. unfold selected_cluster. eauto with read_only. Qed.

Lemma rank_read_only query top_n : read_only (rank query top_n).
Proof. unfold rank. eauto 15 with read_only. Qed.

Hint Resolve selected_cluster_read_only rank_read_only : read_only.

Lemma eval_vectorize_query query st :
  eval (vectorize_query query) st
  = normalize [tfidf_vectorizer st (lower query)].
Proof. done. Qed.

Lemma eval_most_relevant_cluster X st :
  eval (most_relevant_cluster X) st
  = rbind (cosine_similarity X (cluster_centers_ (kmeans_model st)))
          (λ S, argmax (concat S)).
Proof.
  unfold most_relevant_cluster. rewrite eval_bind by eauto with read_only.
  rewrite eval_gets. simpl. rewrite eval_bind by eauto with read_only.
  rewrite eval_lift. by destruct (cosine_similarity _ _).
Qed.

Lemma eval_docs_in_cluster c st :
  eval (docs_in_cluster c) st
  = match cluster_index st !! c with
    | Some members => inr members
    | None => inl KeyError
    end.
Proof. done. Qed.

Lemma eval_selected_cluster query st :
  eval (selected_cluster query) st
  = rbind (normalize [tfidf_vectorizer st (lower query)])
          (λ X, eval (most_relevant_cluster X) st).
Proof.
  unfold selected_cluster. rewrite eval_bind by eauto with read_only.
  by rewrite eval_vectorize_query.
Qed.

Lemma eval_rank query top_n st :
  eval (rank query top_n) st
  = rbind (normalize [tfidf_vectorizer st (lower query)]) (λ X,
    rbind (eval (most_relevant_cluster X) st) (λ c,
    rbind (eval (docs_in_cluster c) st) (λ docs,
    rbind (take_rows (normalized_vectors st) docs) (λ rows,
    rbind (cosine_similarity X rows) (λ sims,
      inr (docs, reverse (slice_from (- top_n) (argsort (concat sims))))))))).
Proof.
  unfold rank. rewrite eval_bind by eauto with read_only.
  rewrite eval_vectorize_query.
  destruct (normalize _) as [e | X]; simpl; [done |].
  rewrite eval_bind by eauto with read_only.
  destruct (eval (most_relevant_cluster X) st) as [e | c]; simpl; [done |].
  rewrite eval_bind by eauto with read_only.
  destruct (eval (docs_in_cluster c) st) as [e | docs]; simpl; [done |].
  rewrite eval_bind by eauto with read_only. rewrite eval_gets. simpl.
  rewrite eval_bind by eauto with read_only. rewrite eval_lift.
  destruct (take_rows _ docs) as [e | rows]; simpl; [done |].
  rewrite eval_bind by eauto with read_only. rewrite eval_lift.
  by destruct (cosine_similarity X rows).
Qed.

Lemma rank_inr query top_n st docs idxs :
  let v := tfidf_vectorizer st (lower query) in
  eval (rank query top_n) st = inr (docs, idxs) ↔
  ∃ c rows,
    v ≠ [] ∧ eval (selected_cluster query) st = inr c ∧
    cluster_index st !! c = Some docs ∧
    take_rows (normalized_vectors st) docs = inr rows ∧
    rows ≠ [] ∧ Forall (λ r, length r = length v) rows ∧
    idxs = reverse (slice_from (- top_n)
                      (argsort (cosine (normalize_row v) <$> rows))).
Proof.
  intros v. rewrite eval_rank, eval_selected_cluster. fold v. split.
  - destruct (normalize [v]) as [e | X] eqn:HX; simpl; [done |].
    apply normalize_single in HX as [-> Hv].
    destruct (eval (most_relevant_cluster _) st) as [e | c] eqn:Hc; simpl; [done |].
    rewrite eval_docs_in_cluster.
    destruct (cluster_index st !! c) as [docs' |] eqn:Hdocs; simpl; [| done].
    destruct (take_rows _ docs') as [e | rows] eqn:Hrows; simpl; [done |].
    destruct (cosine_similarity _ rows) as [e | sims] eqn:Hsims; simpl; [done |].
    intros [= <- <-].
    apply cosine_similarity_single in Hsims as (-> & _ & Hne & Hall).
    rewrite normalize_row_length in Hall.
    exists c, rows. simpl. by rewrite app_nil_r.
  - intros (c & rows & Hv & Hc & Hdocs & Hrows & Hne & Hall & ->).
    assert (normalize [v] = inr [normalize_row v]) as HX
      by by apply normalize_single.
    rewrite HX in Hc |- *. simpl in *. rewrite Hc. simpl.
    rewrite eval_docs_in_cluster, Hdocs. simpl. rewrite Hrows. simpl.
    assert (cosine_similarity [normalize_row v] rows
            = inr [cosine (normalize_row v) <$> rows]) as ->.
    { apply cosine_similarity_single. rewrite normalize_row_length.
      split_and!; [done | | done | done].
      intros Hnil. apply Hv. apply (f_equal length) in Hnil.
      rewrite normalize_row_length in Hnil. by destruct v. }
    simpl. by rewrite app_nil_r.
Qed.

Lemma eval_mapM_cons {A B} (f : A → M F B) (a : A) (l : list A) st :
  (∀ a, read_only (f a)) →
  eval (mapM f (a :: l)) st
  = rbind (eval (f a) st) (λ b,
    rbind (eval (mapM f l) st) (λ bs, inr (b :: bs))).
Proof.
  intros Hf. simpl. rewrite eval_bind by done.
  destruct (eval (f a) st) as [e | b]; simpl; [done |].
  rewrite eval_bind by eauto with read_only.
  by destruct (eval (mapM f l) st).
Qed.

Lemma eval_getitems {A} (docs : list A) (idxs : list nat) st :
  eval (mapM (λ idx, lift (getitem docs idx)) idxs) st = take_rows docs idxs.
Proof.
  induction idxs as [| idx idxs IH]; [done |].
  rewrite eval_mapM_cons by eauto with read_only.
  rewrite eval_lift, IH. done.
Qed.

Lemma eval_titles (docs idxs : list nat) st (titles : list string) :
  eval (mapM (λ idx,
                doc ← lift (getitem docs idx);
                articles_titles ← gets articles_titles;
                lift (getitem articles_titles doc)) idxs) st = inr titles ↔
  ∃ res, take_rows docs idxs = inr res ∧
         take_rows (articles_titles st) res = inr titles.
Proof.
  revert titles. induction idxs as [| idx idxs IH]; intros titles.
  - simpl. split.
    + intros [= <-]. by exists [].
    + by intros (res & [= <-] & [= <-]).
  - rewrite eval_mapM_cons by eauto 6 with read_only.
    rewrite eval_bind by eauto with read_only. rewrite eval_lift. simpl.
    destruct (getitem docs idx) as [e | doc]; simpl.
    { split; [done | by intros (res & ? & _)]. }
    rewrite eval_bind by eauto with read_only. rewrite eval_gets. simpl.
    rewrite eval_lift.
    destruct (getitem (articles_titles st) doc) as [e | t] eqn:Ht; simpl.
    { split; [done |]. intros (res & Hres & Hts).
      destruct (take_rows docs idxs); simplify_eq/=. by rewrite Ht in Hts. }
    destruct (eval (mapM _ idxs) st) as [e | ts] eqn:Hts; simpl.
    + split; [done |]. intros (res & Hres & Hres').
      destruct (take_rows docs idxs) as [e' | res'] eqn:Hdocs; simplify_eq/=.
      rewrite Ht in Hres'. simpl in Hres'.
      destruct (take_rows (articles_titles st) res') as [e' | ts'] eqn:Hts';
        simplify_eq/=.
      assert (inl e = inr ts') as Hbad; [| done].
      apply IH. by exists res'.
    + destruct (proj1 (IH ts) eq_refl) as (res & Hres & Hres'). split.
      * intros [= <-]. exists (doc :: res). rewrite Hres. simpl.
        by rewrite Ht, Hres'.
      * intros (res0 & Hres0 & Hts0). rewrite Hres in Hres0.
        simplify_eq/=. rewrite Ht, Hres' in Hts0. by simplify_eq/=.
Qed.

Lemma search_docs_inr query top_n st res :
  eval (search_docs query top_n) st = inr res ↔
  ∃ docs idxs, eval (rank query top_n) st = inr (docs, idxs) ∧
               take_rows docs idxs = inr res.
Proof.
  unfold search_docs. rewrite eval_bind by eauto with read_only.
  destruct (eval (rank query top_n) st) as [e | [docs idxs]]; simpl.
  - split; [done | by intros (? & ? & ? & _)].
  - rewrite eval_getitems. split; [by eauto |].
    by intros (? & ? & [= <- <-] & ?).
Qed.

(** The titles [search] returns are the titles of [search_docs]. *)
Lemma search_inr query top_n st titles :
  eval (search query top_n) st = inr titles ↔
  ∃ res, eval (search_docs query top_n) st = inr res ∧
         take_rows (articles_titles st) res = inr titles.
Proof.
  unfold search. rewrite eval_bind by eauto with read_only.
  destruct (eval (rank query top_n) st) as [e | [docs idxs]] eqn:Hrank; simpl.
  - split; [done |]. intros (res & Hres & _).
    apply search_docs_inr in Hres as (? & ? & ? & _). congruence.
  - rewrite eval_titles. split.
    + intros (res & Hres & Hts). exists res. split; [| done].
      apply search_docs_inr. eauto.
    + intros (res & Hres & Hts). exists res. split; [| done].
      apply search_docs_inr in Hres as (? & ? & Hrank' & ?). congruence.
Qed.
End SearchFacts.

#[global] Hint Resolve vectorize_query_read_only most_relevant_cluster_read_only
  docs_in_cluster_read_only selected_cluster_read_only rank_read_only : read_only.

(** ** The cluster index is the partition of the documents by label *)

Section ClusterIndex.
Implicit Types (clusters members : list nat) (c d i : nat)
  (m : gmap nat (list nat)).

Lemma index_step_lookup m i k c :
  index_step m (i, k) !! c
  = if decide (k = c) then Some (default [] (m !! k) ++ [i]) else m !! c.
Proof.
  unfold index_step. destruct (m !! k) as [members |] eqn:Hk.
  - rewrite Hk. simpl. case_decide as Hc.
    + subst. by rewrite lookup_insert_eq.
    + by rewrite lookup_insert_ne.
  - rewrite lookup_insert_eq. simpl. case_decide as Hc.
    + subst. by rewrite lookup_insert_eq.
    + by rewrite !lookup_insert_ne.
Qed.

Lemma enumerate_snoc clusters k :
  enumerate (clusters ++ [k]) = enumerate clusters ++ [(length clusters, k)].
Proof.
  unfold enumerate. rewrite imap_app. simpl.
  by replace (length clusters + 0) with (length clusters) by lia.
Qed.

Lemma create_cluster_index_snoc clusters k :
  create_cluster_index (clusters ++ [k])
  = index_step (create_cluster_index clusters) (length clusters, k).
Proof.
  unfold create_cluster_index. by rewrite enumerate_snoc, foldl_app.
Qed.

Lemma members_of_snoc c clusters k :
  members_of c (clusters ++ [k])
  = members_of c clusters ++ (if decide (k = c) then [length clusters] else []).
Proof.
  unfold members_of. rewrite enumerate_snoc, filter_app, fmap_app.
  f_equal. rewrite filter_cons, filter_nil. simpl. by case_decide.
Qed.

Lemma create_cluster_index_lookup clusters c :
  create_cluster_index clusters !! c
  = match members_of c clusters with [] => None | members => Some members end.
Proof.
  induction clusters as [| k clusters IH] using rev_ind; [done |].
  rewrite create_cluster_index_snoc, members_of_snoc, index_step_lookup.
  case_decide as Hk.
  - subst k. rewrite IH.
    destruct (members_of c clusters) as [| d members]; simpl; [done |].
    by destruct members.
  - by rewrite app_nil_r.
Qed.

Lemma elem_of_members_of c clusters d :
  d ∈ members_of c clusters ↔ clusters !! d = Some c.
Proof.
  unfold members_of, enumerate. rewrite list_elem_of_fmap. split.
  - intros ([i k] & -> & Hik). apply list_elem_of_filter in Hik as [Hk Hik].
    apply elem_of_lookup_imap in Hik as (i' & k' & [= -> ->] & Hi).
    simpl in *. by subst.
  - intros Hd. exists (d, c). split; [done |].
    apply list_elem_of_filter. split; [done |].
    apply elem_of_lookup_imap. eauto.
Qed.

Lemma members_of_sorted c clusters : StronglySorted lt (members_of c clusters).
Proof.
  induction clusters as [| k clusters IH] using rev_ind; [constructor |].
  rewrite members_of_snoc. apply StronglySorted_app_2; [| done |].
  - intros d e Hd He. apply elem_of_members_of, lookup_lt_Some in Hd.
    case_decide; [| by apply not_elem_of_nil in He].
    by apply list_elem_of_singleton in He as ->.
  - case_decide; repeat constructor.
Qed.

Lemma sorted_lt_NoDup members : StronglySorted lt members → NoDup members.
Proof.
  induction 1 as [| d members _ IH Hd]; constructor; [| done].
  intros Hin. rewrite Forall_forall in Hd. specialize (Hd d Hin). lia.
Qed.

(** An entry of the index lists exactly the documents of its cluster, and
    is never empty. *)
Lemma create_cluster_index_Some clusters c members :
  create_cluster_index clusters !! c = Some members ↔
  members = members_of c clusters ∧ c ∈ clusters.
Proof.
  rewrite create_cluster_index_lookup. split.
  - destruct (members_of c clusters) as [| d ms] eqn:Hms; [done |].
    intros [= <-]. split; [done |].
    assert (d ∈ members_of c clusters) as Hd by (rewrite Hms; left).
    apply elem_of_members_of in Hd. by eapply list_elem_of_lookup_2.
  - intros [-> Hc]. apply list_elem_of_lookup in Hc as [d Hd].
    apply elem_of_members_of in Hd.
    destruct (members_of c clusters); [by apply not_elem_of_nil in Hd | done].
Qed.

Lemma create_cluster_index_None clusters c :
  create_cluster_index clusters !! c = None ↔ c ∉ clusters.
Proof.
  split.
  - intros Hnone Hc. apply list_elem_of_lookup in Hc as [d Hd].
    apply elem_of_members_of in Hd.
    rewrite create_cluster_index_lookup in Hnone.
    destruct (members_of c clusters); [by apply not_elem_of_nil in Hd | done].
  - intros Hc. destruct (create_cluster_index clusters !! c) eqn:Hl; [| done].
    apply create_cluster_index_Some in Hl as [_ ?]. done.
Qed.
End ClusterIndex.

(** ** Ranking inside the selected cluster *)

Section Ranking.
Context {F : Type} `{Scalar F} `{!Argsort F}.
Implicit Types (st : Store F) (query : string) (top_n : Z)
  (members idxs res : list nat) (rows : list (list F)).

Lemma argsort_length (a : list F) : length (argsort a) = length a.
Proof. by rewrite (Permutation_length (argsort_perm a)), length_seq. Qed.

Lemma argsort_in_range (a : list F) i : i ∈ argsort a → i < length a.
Proof. rewrite argsort_perm, elem_of_seq. lia. Qed.

Lemma slice_in_range (a : list F) (start : Z) i :
  i ∈ reverse (slice_from start (argsort a)) → i < length a.
Proof.
  rewrite elem_of_reverse. destruct (slice_from_drop start (argsort a)) as [k ->].
  intros Hi. apply argsort_in_range. by eapply subseteq_drop.
Qed.

Lemma take_rows_seq {A} (X : list A) : take_rows X (seq 0 (length X)) = inr X.
Proof.
  apply take_rows_inr, Forall2_same_length_lookup.
  split; [by rewrite length_seq |].
  intros i r x Hr Hx. apply lookup_seq in Hr as [-> _]. done.
Qed.

Lemma take_rows_perm {A} (X : list A) idxs idxs' (xs : list A) :
  idxs ≡ₚ idxs' → take_rows X idxs = inr xs →
  ∃ xs', take_rows X idxs' = inr xs' ∧ xs ≡ₚ xs'.
Proof.
  intros Hperm. revert xs.
  induction Hperm as [| r idxs idxs' _ IH | r r' idxs | idxs1 idxs2 idxs3 _ IH1 _ IH2];
    intros xs Hxs.
  - exists xs. done.
  - apply take_rows_inr in Hxs. inversion Hxs as [| ? x ? xs0 Hx Hxs0]; subst.
    apply take_rows_inr in Hxs0. destruct (IH _ Hxs0) as (xs' & Hxs' & Hp).
    exists (x :: xs'). split; [| by constructor].
    apply take_rows_inr. constructor; [done | by apply take_rows_inr].
  - apply take_rows_inr in Hxs.
    inversion Hxs as [| ? x ? xs0 Hx Hxs0]; subst.
    inversion Hxs0 as [| ? x' ? xs1 Hx' Hxs1]; subst.
    exists (x' :: x :: xs1). split; [| apply Permutation_swap].
    apply take_rows_inr. by repeat constructor.
  - destruct (IH1 _ Hxs) as (xs2 & Hxs2 & Hp2).
    destruct (IH2 _ Hxs2) as (xs3 & Hxs3 & Hp3).
    exists xs3. split; [done | by etrans].
Qed.

(** What [argsort] compares at a position of the member list is the
    similarity of that member. *)
Lemma key_doc_similarity st query members rows i d :
  take_rows (normalized_vectors st) members = inr rows →
  members !! i = Some d →
  key (cosine (normalize_row (query_vector st query)) <$> rows) i
  = doc_similarity st query d.
Proof.
  rewrite take_rows_inr. intros Hrows Hd.
  destruct (Forall2_lookup_l _ _ _ _ _ Hrows Hd) as (row & Hrow & Hvec).
  unfold key, doc_similarity. by rewrite list_lookup_fmap, Hrow, Hvec.
Qed.

Lemma ranked_sorted st query members rows (start : Z) res :
  take_rows (normalized_vectors st) members = inr rows →
  take_rows members
    (reverse (slice_from start
       (argsort (cosine (normalize_row (query_vector st query)) <$> rows))))
  = inr res →
  StronglySorted (ranked_before st query) res.
Proof.
  intros Hrows Hres. apply take_rows_inr in Hres.
  set (S := cosine _ <$> rows) in *.
  eapply (Forall2_sorted _ (flip (key_le S))); [| exact Hres |].
  - intros i j d e Hd He Hij. unfold flip, key_le in Hij. unfold ranked_before.
    by rewrite <- (key_doc_similarity st query members rows i d),
               <- (key_doc_similarity st query members rows j e).
  - apply reverse_sorted. destruct (slice_from_drop start (argsort S)) as [k ->].
    apply drop_sorted, argsort_sorted.
Qed.

Lemma ranked_total members rows (x : list F) (start : Z) :
  length rows = length members →
  ∃ res, take_rows members
           (reverse (slice_from start (argsort (cosine x <$> rows)))) = inr res.
Proof.
  intros Hlen. apply take_rows_in_range, Forall_forall. intros i Hi.
  apply slice_in_range in Hi. by rewrite length_fmap, Hlen in Hi.
Qed.

Lemma ranked_all members rows (x : list F) res :
  length rows = length members →
  take_rows members (reverse (argsort (cosine x <$> rows))) = inr res →
  res ≡ₚ members.
Proof.
  intros Hlen Hres.
  assert (reverse (argsort (cosine x <$> rows)) ≡ₚ seq 0 (length members)) as Hp.
  { by rewrite reverse_Permutation, argsort_perm, length_fmap, Hlen. }
  destruct (take_rows_perm _ _ _ _ Hp Hres) as (res' & Hres' & Hperm).
  rewrite take_rows_seq in Hres'. by simplify_eq.
Qed.
End Ranking.

(** ** The state after fitting *)

Section Fitted.
Context {F : Type} `{Scalar F} `{!Argsort F}.
Implicit Types (st : Store F) (query : string) (top_n : Z)
  (members idxs res : list nat) (rows : list (list F)).

Lemma selected_cluster_spec st query :
  query_vector st query ≠ [] →
  cluster_centers_ (kmeans_model st) ≠ [] →
  Forall (λ r, length r = length (query_vector st query))
         (cluster_centers_ (kmeans_model st)) →
  ∃ c top,
    eval (selected_cluster query) st = inr c ∧
    centroid_similarities st query !! c = Some top ∧
    (∀ j s, centroid_similarities st query !! j = Some s → fleb s top = true) ∧
    (∀ j s, centroid_similarities st query !! j = Some s → j < c →
            fltb s top = true).
Proof.
  intros Hv Hne Hall. rewrite eval_selected_cluster.
  fold (query_vector st query).
  assert (normalize [query_vector st query]
          = inr [normalize_row (query_vector st query)]) as ->
    by by apply normalize_single.
  simpl. rewrite eval_most_relevant_cluster.
  assert (cosine_similarity [normalize_row (query_vector st query)]
            (cluster_centers_ (kmeans_model st))
          = inr [centroid_similarities st query]) as ->.
  { apply cosine_similarity_single. rewrite normalize_row_length.
    split_and!; [done | | done | done].
    intros Hnil. apply Hv. apply (f_equal length) in Hnil.
    rewrite normalize_row_length in Hnil. by destruct (query_vector st query). }
  simpl. rewrite app_nil_r. apply argmax_spec.
  unfold centroid_similarities.
  by destruct (cluster_centers_ (kmeans_model st)).
Qed.

Lemma selected_cluster_fitted st query :
  fitted st → ∃ c, eval (selected_cluster query) st = inr c.
Proof.
  intros (D & HD & Hq & _ & Hc & Hne & _).
  destruct (selected_cluster_spec st query) as (c & _ & Hsel & _); [| done | | by eauto].
  - unfold query_vector. specialize (Hq (lower query)).
    destruct (tfidf_vectorizer st (lower query)); [done | done].
  - unfold query_vector. by rewrite Hq.
Qed.

(** Document indices returned by a successful [search_docs], traced back
    through the stages. *)
Lemma search_docs_inv st query top_n res :
  eval (search_docs query top_n) st = inr res →
  ∃ c members rows,
    eval (selected_cluster query) st = inr c ∧
    cluster_index st !! c = Some members ∧
    take_rows (normalized_vectors st) members = inr rows ∧
    take_rows members
      (reverse (slice_from (- top_n)
         (argsort (cosine (normalize_row (query_vector st query)) <$> rows))))
    = inr res.
Proof.
  intros Hres. apply search_docs_inr in Hres as (members & idxs & Hrank & Hres).
  apply rank_inr in Hrank as (c & rows & _ & Hc & Hm & Hrows & _ & _ & ->).
  by exists c, members, rows.
Qed.

(** In a fitted state the query succeeds as soon as the selected cluster
    has an entry in the index. *)
Lemma search_fitted st query top_n c members :
  fitted st →
  eval (selected_cluster query) st = inr c →
  cluster_index st !! c = Some members →
  ∃ rows res titles,
    take_rows (normalized_vectors st) members = inr rows ∧
    take_rows members
      (reverse (slice_from (- top_n)
         (argsort (cosine (normalize_row (query_vector st query)) <$> rows))))
    = inr res ∧
    eval (search_docs query top_n) st = inr res ∧
    take_rows (articles_titles st) res = inr titles ∧
    eval (search query top_n) st = inr titles.
Proof.
  intros (D & HD & Hq & Hvecs & _ & _ & Hlabels & Htitles & Hindex) Hc Hm.
  rewrite Hindex in Hm. apply create_cluster_index_Some in Hm as [Hm Hin].
  assert (∀ d, d ∈ members → d < length (normalized_vectors st)) as Hrange.
  { intros d Hd. rewrite Hm in Hd. apply elem_of_members_of in Hd.
    rewrite <- Hlabels. by eapply lookup_lt_Some. }
  destruct (take_rows_in_range (normalized_vectors st) members) as [rows Hrows].
  { by apply Forall_forall. }
  pose proof (take_rows_length _ _ _ Hrows) as Hlen.
  destruct (ranked_total members rows
              (normalize_row (query_vector st query)) (- top_n) Hlen)
    as [res Hres].
  assert (∀ d, d ∈ res → d < length (articles_titles st)) as Hres_range.
  { intros d Hd. rewrite Htitles. apply Hrange.
    by eapply take_rows_elem_of. }
  destruct (take_rows_in_range (articles_titles st) res) as [titles Htitles'].
  { by apply Forall_forall. }
  assert (eval (search_docs query top_n) st = inr res) as Hdocs.
  { apply search_docs_inr. eexists members, _. split; [| exact Hres].
    apply rank_inr. exists c, rows. fold (query_vector st query).
    assert (query_vector st query ≠ []) as Hv.
    { unfold query_vector. specialize (Hq (lower query)).
      by destruct (tfidf_vectorizer st (lower query)). }
    split_and!; [done | done | | done | | | done].
    - rewrite Hindex. by apply create_cluster_index_Some.
    - intros ->. simpl in Hlen. apply list_elem_of_lookup in Hin as [d Hd].
      apply elem_of_members_of in Hd. rewrite <- Hm in Hd.
      destruct members; [by apply not_elem_of_nil in Hd | done].
    - apply Forall_forall. intros row Hrow.
      unfold query_vector. rewrite Hq.
      rewrite Forall_forall in Hvecs. apply Hvecs.
      by eapply take_rows_elem_of. }
  exists rows, res, titles. split_and!; [done | done | done | done |].
  apply search_inr. eauto.
Qed.
End Fitted.

(** ** An all-zero query *)

Section ZeroQuery.
Context {F : Type} `{Scalar F} `{!Argsort F}.
Implicit Types (st : Store F) (query : string) (v x y : list F).

Lemma dot_zero_l x y : all_zero x → dot x y = fzero.
Proof.
  unfold dot. intros Hx. revert y.
  induction Hx as [| a x -> _ IH]; intros [| b y]; simpl; try done.
  rewrite fmul_zero_l, fadd_zero_l. apply IH.
Qed.

Lemma normalize_row_zero v : all_zero v → normalize_row v = v.
Proof.
  intros Hv. unfold normalize_row. rewrite dot_zero_l by done.
  by rewrite (proj2 (feqb_eq fzero fzero) eq_refl).
Qed.

Lemma cosine_zero_l v y : all_zero v → cosine (normalize_row v) y = fzero.
Proof.
  intros Hv. unfold cosine. do 2 rewrite (normalize_row_zero v) by done.
  by apply dot_zero_l.
Qed.

Lemma selected_cluster_zero st query :
  fitted st → all_zero (query_vector st query) →
  eval (selected_cluster query) st = inr 0.
Proof.
  intros (D & HD & Hq & _ & Hcs & Hne & _) Hzero.
  destruct (selected_cluster_spec st query) as (c & top & Hsel & Htop & _ & Hlt).
  - unfold query_vector. specialize (Hq (lower query)).
    by destruct (tfidf_vectorizer st (lower query)).
  - done.
  - unfold query_vector. by rewrite Hq.
  - destruct c as [| c]; [done |]. exfalso.
    assert (∀ j s, centroid_similarities st query !! j = Some s → s = fzero)
      as Hall.
    { intros j s. unfold centroid_similarities. rewrite list_lookup_fmap.
      destruct (_ !! j); simpl; [| done].
      intros [= <-]. by apply cosine_zero_l. }
    destruct (lookup_lt_is_Some_2 (centroid_similarities st query) 0) as [s Hs].
    { apply lookup_lt_Some in Htop. lia. }
    specialize (Hlt 0 s Hs ltac:(lia)).
    rewrite (Hall _ _ Hs), (Hall _ _ Htop) in Hlt.
    unfold fltb in Hlt. by rewrite fleb_refl in Hlt.
Qed.
End ZeroQuery.

(** * The specification's claims *)

Section Claims.
Context {F : Type} `{Scalar F} `{!Argsort F}.
Implicit Types (st : Store F) (query : string) (top_n : Z)
  (members res : list nat) (titles : list string).

(** C1: every document behind a title that [search] returns is a member
    of the one cluster selected for the query; with the index built from
    the labels, a document labelled with any other cluster is never
    returned, whatever its similarity to the query. *)
Theorem search_within_selected_cluster st query top_n titles :
  eval (search query top_n) st = inr titles →
  ∃ c members res,
    eval (selected_cluster query) st = inr c ∧
    cluster_index st !! c = Some members ∧
    eval (search_docs query top_n) st = inr res ∧
    take_rows (articles_titles st) res = inr titles ∧
    (∀ d, d ∈ res → d ∈ members) ∧
    (cluster_index st = create_cluster_index (labels_ (kmeans_model st)) →
     ∀ d c', labels_ (kmeans_model st) !! d = Some c' → c' ≠ c → d ∉ res).
Proof.
  intros Hsearch. apply search_inr in Hsearch as (res & Hres & Htitles).
  destruct (search_docs_inv _ _ _ _ Hres) as (c & members & rows & Hc & Hm & _ & Hsel).
  exists c, members, res. split_and!; [done | done | done | done | |].
  - intros d Hd. by eapply take_rows_elem_of.
  - intros Hindex d c' Hd Hne Hin.
    rewrite Hindex in Hm. apply create_cluster_index_Some in Hm as [-> _].
    eapply take_rows_elem_of in Hin; [| exact Hsel].
    apply elem_of_members_of in Hin. congruence.
Qed.

(** C2, as the code has it: an all-zero query vector raises no error of its
    own.  Every centroid similarity is zero, so [argmax] selects cluster 0;
    when cluster 0 has an entry in the index and [top_n >= 1], [search]
    returns a non-empty list of [min top_n (size of cluster 0)] titles,
    and when it has none the lookup raises [KeyError]. *)
Theorem search_zero_query st query top_n :
  fitted st → all_zero (query_vector st query) →
  eval (selected_cluster query) st = inr 0 ∧
  (∀ members, cluster_index st !! 0 = Some members → (1 ≤ top_n)%Z →
     ∃ titles, eval (search query top_n) st = inr titles ∧ titles ≠ [] ∧
               length titles = Nat.min (Z.to_nat top_n) (length members)) ∧
  (cluster_index st !! 0 = None → eval (search query top_n) st = inl KeyError).
Proof.
  intros Hfit Hzero.
  pose proof (selected_cluster_zero st query Hfit Hzero) as Hsel.
  split_and!; [done | |].
  - intros members Hm Hn.
    destruct (search_fitted st query top_n 0 members Hfit Hsel Hm)
      as (rows & res & titles & Hrows & Hres & _ & Htitles & Hsearch).
    exists titles. split; [done |].
    assert (length titles = Nat.min (Z.to_nat top_n) (length members)) as Hlen.
    { rewrite (take_rows_length _ _ _ Htitles), (take_rows_length _ _ _ Hres).
      rewrite length_reverse, slice_from_last, length_drop by lia.
      rewrite argsort_length, length_fmap, (take_rows_length _ _ _ Hrows). lia. }
    split; [| done].
    destruct Hfit as (_ & _ & _ & _ & _ & _ & _ & _ & Hindex).
    rewrite Hindex in Hm. apply create_cluster_index_Some in Hm as [Hm Hin].
    assert (members ≠ []) as Hne.
    { apply list_elem_of_lookup in Hin as [d Hd].
      apply elem_of_members_of in Hd. rewrite <- Hm in Hd.
      intros ->. by apply not_elem_of_nil in Hd. }
    intros ->. simpl in Hlen. destruct members; [done |]. simpl in Hlen. lia.
  - intros Hnone. unfold search. rewrite eval_bind by eauto with read_only.
    rewrite eval_rank. rewrite eval_selected_cluster in Hsel.
    destruct (normalize _) as [e | X]; simpl in *; [done |].
    rewrite Hsel. simpl. by rewrite eval_docs_in_cluster, Hnone.
Qed.

(** C3, as the code has it: the index has an entry exactly for the
    cluster ids that label at least one document, and that entry is never
    empty; looking up an id that received no document raises [KeyError],
    and so does [search] when it selects such a cluster. *)
Theorem cluster_lookup_needs_members st c :
  cluster_index st = create_cluster_index (labels_ (kmeans_model st)) →
  (c ∈ labels_ (kmeans_model st) →
     ∃ members, eval (docs_in_cluster c) st = inr members ∧ members ≠ []) ∧
  (c ∉ labels_ (kmeans_model st) →
     eval (docs_in_cluster c) st = inl KeyError ∧
     ∀ query top_n, eval (selected_cluster query) st = inr c →
                    eval (search query top_n) st = inl KeyError).
Proof.
  intros Hindex. rewrite eval_docs_in_cluster, Hindex. split.
  - intros Hc. apply list_elem_of_lookup in Hc as [d Hd].
    pose proof Hd as Hd'. apply elem_of_members_of in Hd'.
    exists (members_of c (labels_ (kmeans_model st))).
    rewrite (proj2 (create_cluster_index_Some (labels_ (kmeans_model st)) c
                     (members_of c (labels_ (kmeans_model st))))).
    + split; [done |]. intros Hnil. rewrite Hnil in Hd'.
      by apply not_elem_of_nil in Hd'.
    + split; [done |]. by eapply list_elem_of_lookup_2.
  - intros Hc. apply create_cluster_index_None in Hc.
    rewrite Hc. split; [done |].
    intros query top_n Hsel. unfold search.
    rewrite eval_bind by eauto with read_only.
    rewrite eval_rank. rewrite eval_selected_cluster in Hsel.
    destruct (normalize _) as [e | X]; simpl in *; [done |].
    rewrite Hsel. simpl. by rewrite eval_docs_in_cluster, Hindex, Hc.
Qed.

(** C4, as the code has it: for [top_n >= 1] the documents [search]
    returns are in descending order of similarity to the query and are at
    most [top_n], namely [min top_n (cluster size)].  Nothing orders
    documents of equal similarity by ascending index: their order is the
    reverse of the order [argsort] leaves them in. *)
Theorem search_sorted_and_truncated st query top_n res :
  (1 ≤ top_n)%Z →
  eval (search_docs query top_n) st = inr res →
  StronglySorted (ranked_before st query) res ∧
  length res ≤ Z.to_nat top_n ∧
  ∃ c members,
    eval (selected_cluster query) st = inr c ∧
    cluster_index st !! c = Some members ∧
    length res = Nat.min (Z.to_nat top_n) (length members).
Proof.
  intros Hn Hres.
  destruct (search_docs_inv _ _ _ _ Hres) as (c & members & rows & Hc & Hm & Hrows & Hsel).
  assert (length res = Nat.min (Z.to_nat top_n) (length members)) as Hlen.
  { rewrite (take_rows_length _ _ _ Hsel).
    rewrite length_reverse, slice_from_last, length_drop by lia.
    rewrite argsort_length, length_fmap, (take_rows_length _ _ _ Hrows). lia. }
  split_and!; [by eapply ranked_sorted | lia | by eauto].
Qed.

(** C5, as the library has it: [normalize] divides every component of a
    row by the row's Euclidean norm when the squared norm is not zero, and
    returns an all-zero row unchanged; it raises no error for it. *)
Theorem normalize_divides_or_keeps (v : list F) :
  v ≠ [] →
  ∃ v', normalize [v] = inr [v'] ∧
    (dot v v ≠ fzero → v' = (λ x, fdiv x (fsqrt (dot v v))) <$> v) ∧
    (all_zero v → v' = v).
Proof.
  intros Hv. exists (normalize_row v). split_and!.
  - by apply normalize_single.
  - intros Hnorm. unfold normalize_row.
    destruct (feqb (dot v v) fzero) eqn:Heq; [| done].
    by apply feqb_eq in Heq.
  - apply normalize_row_zero.
Qed.

(** C6: the cluster [search] selects is the id of a centroid of greatest
    cosine similarity to the query, and every centroid of a lower id is
    strictly less similar: among equally good centroids the lowest id
    wins. *)
Theorem search_selects_first_best_centroid st query :
  query_vector st query ≠ [] →
  cluster_centers_ (kmeans_model st) ≠ [] →
  Forall (λ r, length r = length (query_vector st query))
         (cluster_centers_ (kmeans_model st)) →
  ∃ c top,
    eval (selected_cluster query) st = inr c ∧
    c < length (cluster_centers_ (kmeans_model st)) ∧
    centroid_similarities st query !! c = Some top ∧
    (∀ j s, centroid_similarities st query !! j = Some s → fleb s top = true) ∧
    (∀ j s, centroid_similarities st query !! j = Some s → j < c →
            fltb s top = true).
Proof.
  intros Hv Hne Hall.
  destruct (selected_cluster_spec st query Hv Hne Hall)
    as (c & top & Hsel & Htop & Hmax & Hfirst).
  exists c, top. split_and!; [done | | done | done | done].
  apply lookup_lt_Some in Htop.
  unfold centroid_similarities in Htop. by rewrite length_fmap in Htop.
Qed.

(** C7: the index built from an assignment partitions the documents:
    every document index below [N] is in some member list, no document is
    in the lists of two clusters or twice in one, each list holds exactly
    the documents labelled with its cluster, and lists them in ascending
    corpus order. *)
Theorem cluster_index_partition (clusters : list nat) :
  let cluster_index := create_cluster_index clusters in
  (∀ d, d < length clusters ↔
        ∃ c members, cluster_index !! c = Some members ∧ d ∈ members) ∧
  (∀ c c' members members' d,
     cluster_index !! c = Some members → cluster_index !! c' = Some members' →
     d ∈ members → d ∈ members' → c = c') ∧
  (∀ c members, cluster_index !! c = Some members →
     NoDup members ∧ StronglySorted lt members ∧
     ∀ d, d ∈ members ↔ clusters !! d = Some c).
Proof.
  intros cluster_index. unfold cluster_index. split_and!.
  - intros d. split.
    + intros Hd. apply lookup_lt_is_Some in Hd as [c Hc].
      exists c, (members_of c clusters). split.
      * apply create_cluster_index_Some. split; [done |].
        by eapply list_elem_of_lookup_2.
      * by apply elem_of_members_of.
    + intros (c & members & Hm & Hd).
      apply create_cluster_index_Some in Hm as [-> _].
      apply elem_of_members_of in Hd. by eapply lookup_lt_Some.
  - intros c c' members members' d Hm Hm' Hd Hd'.
    apply create_cluster_index_Some in Hm as [-> _].
    apply create_cluster_index_Some in Hm' as [-> _].
    apply elem_of_members_of in Hd. apply elem_of_members_of in Hd'. congruence.
  - intros c members Hm. apply create_cluster_index_Some in Hm as [-> _].
    split_and!.
    + apply sorted_lt_NoDup, members_of_sorted.
    + apply members_of_sorted.
    + intros d. apply elem_of_members_of.
Qed.

(** C8, as the code has it: when the selected cluster has an entry in the
    index (it has at least one member) and [top_n] exceeds its size,
    [search] succeeds and returns one title per member: the documents
    behind them are exactly the members of the cluster, each once. *)
Theorem search_returns_whole_cluster st query top_n c members :
  fitted st →
  eval (selected_cluster query) st = inr c →
  cluster_index st !! c = Some members →
  (Z.of_nat (length members) < top_n)%Z →
  ∃ res titles,
    eval (search_docs query top_n) st = inr res ∧
    eval (search query top_n) st = inr titles ∧
    take_rows (articles_titles st) res = inr titles ∧
    res ≡ₚ members ∧
    length titles = length members.
Proof.
  intros Hfit Hc Hm Hn.
  destruct (search_fitted st query top_n c members Hfit Hc Hm)
    as (rows & res & titles & Hrows & Hres & Hdocs & Htitles & Hsearch).
  pose proof (take_rows_length _ _ _ Hrows) as Hlen.
  rewrite slice_from_all in Hres
    by (rewrite argsort_length, length_fmap, Hlen; lia).
  apply ranked_all in Hres; [| done].
  exists res, titles. split_and!; [done | done | done | done |].
  by rewrite (take_rows_length _ _ _ Htitles), Hres.
Qed.

(** C9: [search] is read-only: the store after the call, whether the call
    returned or raised, is the store before it; so are the vectors, the
    fitted model with its centroids, the cluster index and the titles. *)
Theorem search_leaves_store_unchanged st query top_n :
  let st' := snd (search query top_n st) in
  st' = st ∧
  normalized_vectors st' = normalized_vectors st ∧
  kmeans_model st' = kmeans_model st ∧
  cluster_index st' = cluster_index st ∧
  articles_titles st' = articles_titles st.
Proof.
  intros st'.
  assert (st' = st) as ->; [| done].
  unfold st', search. apply read_only_bind; [apply rank_read_only |].
  intros [docs idxs]. apply read_only_mapM. intros idx.
  eauto 6 with read_only.
Qed.

(** C10: with [top_n = 0] the slice [[-top_n:]] is the whole array: in a
    fitted state whose selected cluster has an entry in the index,
    [search] returns a title for every member of the cluster, in
    descending order of similarity, and not an empty list. *)
Theorem search_top_zero_returns_all st query c members :
  fitted st →
  eval (selected_cluster query) st = inr c →
  cluster_index st !! c = Some members →
  ∃ res titles,
    eval (search_docs query 0) st = inr res ∧
    eval (search query 0) st = inr titles ∧
    take_rows (articles_titles st) res = inr titles ∧
    res ≡ₚ members ∧
    StronglySorted (ranked_before st query) res ∧
    titles ≠ [].
Proof.
  intros Hfit Hc Hm.
  destruct (search_fitted st query 0 c members Hfit Hc Hm)
    as (rows & res & titles & Hrows & Hres & Hdocs & Htitles & Hsearch).
  pose proof (take_rows_length _ _ _ Hrows) as Hlen.
  pose proof (ranked_sorted _ _ _ _ _ _ Hrows Hres) as Hsorted.
  rewrite slice_from_zero in Hres. apply ranked_all in Hres; [| done].
  exists res, titles. split_and!; [done | done | done | done | done |].
  destruct Hfit as (_ & _ & _ & _ & _ & _ & _ & _ & Hindex).
  rewrite Hindex in Hm. apply create_cluster_index_Some in Hm as [Hm Hin].
  apply list_elem_of_lookup in Hin as [d Hd].
  apply elem_of_members_of in Hd. rewrite <- Hm, <- Hres in Hd.
  intros ->. apply take_rows_length in Htitles.
  destruct res; [by apply not_elem_of_nil in Hd | done].
Qed.
End Claims.

(** * Further properties of the query resolver *)

Section SearchTrace.
Context {F : Type} `{Scalar F} `{!Argsort F}.
Implicit Types (st : Store F) (query : string) (top_n : Z)
  (members idxs res : list nat) (rows : list (list F)).

(** Length of [a[-n:]] for every integer [n]. *)
Lemma slice_from_length {A} (n : Z) (a : list A) :
  length (slice_from (- n) a)
  = if (0 <? n)%Z then Nat.min (Z.to_nat n) (length a)
    else length a - Z.to_nat (- n).
Proof.
  unfold slice_from. rewrite length_drop.
  destruct (0 <? n)%Z eqn:Hn.
  - apply Z.ltb_lt in Hn.
    destruct (- n <? 0)%Z eqn:Hneg; [| apply Z.ltb_ge in Hneg; lia]. lia.
  - apply Z.ltb_ge in Hn.
    destruct (- n <? 0)%Z eqn:Hneg; [apply Z.ltb_lt in Hneg; lia |]. lia.
Qed.

Lemma take_rows_app {A} (X : list A) (r1 r2 : list nat) (xs : list A) :
  take_rows X (r1 ++ r2) = inr xs ↔
  ∃ xs1 xs2, xs = xs1 ++ xs2 ∧ take_rows X r1 = inr xs1 ∧ take_rows X r2 = inr xs2.
Proof.
  rewrite take_rows_inr. split.
  - intros Hxs. apply Forall2_app_inv_l in Hxs as (xs1 & xs2 & H1 & H2 & ->).
    exists xs1, xs2. by rewrite !take_rows_inr.
  - intros (xs1 & xs2 & -> & H1 & H2). rewrite take_rows_inr in H1, H2.
    by apply Forall2_app.
Qed.

(** Everything a successful [search_docs] went through. *)
Lemma search_docs_trace st query top_n res :
  eval (search_docs query top_n) st = inr res ↔
  ∃ c members rows,
    query_vector st query ≠ [] ∧
    eval (selected_cluster query) st = inr c ∧
    cluster_index st !! c = Some members ∧
    take_rows (normalized_vectors st) members = inr rows ∧
    rows ≠ [] ∧
    Forall (λ r, length r = length (query_vector st query)) rows ∧
    take_rows members
      (reverse (slice_from (- top_n)
         (argsort (cosine (normalize_row (query_vector st query)) <$> rows))))
    = inr res.
Proof.
  rewrite search_docs_inr. split.
  - intros (members & idxs & Hrank & Hres).
    apply rank_inr in Hrank as (c & rows & Hv & Hc & Hm & Hrows & Hne & Hall & ->).
    by exists c, members, rows.
  - intros (c & members & rows & Hv & Hc & Hm & Hrows & Hne & Hall & Hres).
    eexists members, _. split; [| exact Hres].
    apply rank_inr. by exists c, rows.
Qed.

(** The selected cluster of a successful query has at least one member. *)
Lemma take_rows_nonempty {A} (X : list A) (r : list nat) (xs : list A) :
  take_rows X r = inr xs → xs ≠ [] → r ≠ [].
Proof. intros Hxs Hne ->. simpl in Hxs. by simplify_eq. Qed.

Lemma normalize_inl (X : list (list F)) e : normalize X = inl e → e = ValueError.
Proof.
  unfold normalize. destruct (check_array X) eqn:HX; simpl; [| done].
  intros [= <-]. by eapply check_array_inl.
Qed.

Lemma cosine_similarity_inl (X Y : list (list F)) e :
  cosine_similarity X Y = inl e → e = ValueError.
Proof.
  unfold cosine_similarity.
  destruct (check_array X) as [e' | X'] eqn:HX; simpl.
  { intros [= <-]. by eapply check_array_inl. }
  destruct (check_array Y) as [e' | Y'] eqn:HY; simpl.
  { intros [= <-]. by eapply check_array_inl. }
  case_match; [by intros [= <-] | done].
Qed.

Lemma argmax_inl (xs : list F) e : argmax xs = inl e → e = ValueError.
Proof. destruct xs; simpl; [by intros [= <-] | done]. Qed.

Lemma selected_cluster_inl st query e :
  eval (selected_cluster query) st = inl e → e = ValueError.
Proof.
  rewrite eval_selected_cluster.
  destruct (normalize _) as [e' | X] eqn:HX; simpl.
  { intros [= <-]. by eapply normalize_inl. }
  rewrite eval_most_relevant_cluster.
  destruct (cosine_similarity _ _) as [e' | S] eqn:HS; simpl.
  { intros [= <-]. by eapply cosine_similarity_inl. }
  apply argmax_inl.
Qed.

(** How [search] fails: in the selection, at the index, or after it. *)
Lemma search_inl st query top_n e :
  eval (search query top_n) st = inl e →
  eval (selected_cluster query) st = inl e ∨
  (∃ c, eval (selected_cluster query) st = inr c ∧
        cluster_index st !! c = None ∧ e = KeyError) ∨
  (∃ c members, eval (selected_cluster query) st = inr c ∧
        cluster_index st !! c = Some members ∧
        (e = IndexError ∨ e = ValueError)).
Proof.
  unfold search. rewrite eval_bind by eauto with read_only.
  rewrite eval_rank, eval_selected_cluster.
  destruct (normalize _) as [e' | X] eqn:HX; simpl; [intros [= ->]; by left |].
  destruct (eval (most_relevant_cluster X) st) as [e' | c] eqn:Hc; simpl;
    [intros [= ->]; by left |].
  rewrite eval_docs_in_cluster.
  destruct (cluster_index st !! c) as [members |] eqn:Hm; simpl.
  - intros He. right. right. exists c, members. split_and!; [done | done |].
    destruct (take_rows _ members) as [e' | rows] eqn:Hrows; simpl in He.
    { simplify_eq. left. by eapply take_rows_inl. }
    destruct (cosine_similarity X rows) as [e' | S] eqn:HS; simpl in He.
    { simplify_eq. right. by eapply cosine_similarity_inl. }
    left. clear -He.
    revert He. generalize (reverse (slice_from (- top_n) (argsort (concat S)))).
    intros idxs He.
    destruct (eval (mapM _ idxs) st) as [e' | titles] eqn:Ht; [| done].
    simplify_eq.
    revert e Ht. induction idxs as [| idx idxs IH]; intros e Ht; [done |].
    rewrite eval_mapM_cons in Ht by eauto 6 with read_only.
    rewrite eval_bind in Ht by eauto with read_only. rewrite eval_lift in Ht.
    destruct (getitem members idx) as [e' | doc] eqn:Hdoc; simpl in Ht.
    { simplify_eq. by eapply getitem_inl. }
    rewrite eval_bind in Ht by eauto with read_only.
    rewrite eval_gets in Ht. simpl in Ht. rewrite eval_lift in Ht.
    destruct (getitem (articles_titles st) doc) as [e' | t] eqn:Htitle;
      simpl in Ht.
    { simplify_eq. by eapply getitem_inl. }
    destruct (eval (mapM _ idxs) st) as [e' | ts] eqn:Hts; simpl in Ht; [| done].
    simplify_eq. by eapply IH.
  - intros [= <-]. right. left. by exists c.
Qed.
End SearchTrace.

Section SearchMore.
Context {F : Type} `{Scalar F} `{!Argsort F}.
Implicit Types (st : Store F) (query : string) (top_n : Z)
  (members idxs res : list nat) (rows : list (list F)) (titles : list string).

Lemma search_missing_entry st query top_n c :
  eval (selected_cluster query) st = inr c →
  cluster_index st !! c = None →
  eval (search query top_n) st = inl KeyError.
Proof.
  intros Hsel Hnone. unfold search. rewrite eval_bind by eauto with read_only.
  rewrite eval_rank. rewrite eval_selected_cluster in Hsel.
  destruct (normalize _) as [e | X]; simpl in *; [done |].
  rewrite Hsel. simpl. by rewrite eval_docs_in_cluster, Hnone.
Qed.

Lemma selected_cluster_shape st query c :
  eval (selected_cluster query) st = inr c → shape_ok st query.
Proof.
  rewrite eval_selected_cluster. fold (query_vector st query).
  destruct (normalize _) as [e | X] eqn:HX; simpl; [done |].
  apply normalize_single in HX as [-> Hv].
  rewrite eval_most_relevant_cluster.
  destruct (cosine_similarity _ _) as [e | S] eqn:HS; simpl; [done |].
  apply cosine_similarity_single in HS as (_ & _ & Hne & Hall).
  rewrite normalize_row_length in Hall. by intros _.
Qed.

(** The positions kept for a smaller [top_n] come first among those kept
    for a larger one. *)
Lemma slice_reverse_prefix {A} (n1 n2 : Z) (a : list A) :
  (1 ≤ n1 ≤ n2)%Z →
  ∃ more, reverse (slice_from (- n2) a) = reverse (slice_from (- n1) a) ++ more.
Proof.
  intros Hn. rewrite !slice_from_last by lia.
  set (k1 := length a - Z.to_nat n1). set (k2 := length a - Z.to_nat n2).
  assert (k2 ≤ k1) as Hk by lia.
  exists (reverse (take (k1 - k2) (drop k2 a))).
  rewrite <- reverse_app. f_equal.
  rewrite <- (take_drop (k1 - k2) (drop k2 a)) at 1.
  f_equal. rewrite drop_drop. f_equal. lia.
Qed.

(** A successful query read a non-empty member list. *)
Lemma search_docs_members st query top_n res :
  eval (search_docs query top_n) st = inr res →
  ∃ c members,
    eval (selected_cluster query) st = inr c ∧
    cluster_index st !! c = Some members ∧
    members ≠ [] ∧
    length res = length (slice_from (- top_n) members).
Proof.
  intros Hres.
  apply search_docs_trace in Hres
    as (c & members & rows & _ & Hc & Hm & Hrows & Hne & _ & Hres).
  pose proof (take_rows_length _ _ _ Hrows) as Hlen.
  exists c, members. split_and!; [done | done | |].
  - intros ->. simpl in Hlen. by destruct rows.
  - rewrite (take_rows_length _ _ _ Hres), length_reverse.
    rewrite !slice_from_length, argsort_length, length_fmap, Hlen. done.
Qed.

Lemma Forall2_NoDup {A B} (P : A → B → Prop) (l : list A) (k : list B) :
  (∀ x x' y, P x y → P x' y → x = x') →
  Forall2 P l k → NoDup l → NoDup k.
Proof.
  intros Hinj. induction 1 as [| x y l k Hxy Hlk IH]; [constructor |].
  intros Hnd. apply NoDup_cons in Hnd as [Hx Hnd].
  constructor; [| by apply IH].
  intros Hy. apply list_elem_of_lookup in Hy as [i Hi].
  destruct (Forall2_lookup_r _ _ _ _ _ Hlk Hi) as (x' & Hx' & Hx'y).
  apply Hx. rewrite (Hinj _ _ _ Hxy Hx'y). by eapply list_elem_of_lookup_2.
Qed.

Lemma slice_NoDup (a : list F) (start : Z) :
  NoDup (reverse (slice_from start (argsort a))).
Proof.
  rewrite reverse_Permutation. destruct (slice_from_drop start (argsort a)) as [k ->].
  eapply sublist_NoDup; [| apply sublist_drop].
  rewrite argsort_perm. apply NoDup_seq.
Qed.
End SearchMore.

Lemma lower_ascii_idemp (c : ascii) : lower_ascii (lower_ascii c) = lower_ascii c.
Proof. destruct c as [[] [] [] [] [] [] [] []]; vm_compute; reflexivity. Qed.

Lemma lower_idemp (s : string) : lower (lower s) = lower s.
Proof.
  induction s as [| c s IH]; simpl; [done |].
  by rewrite lower_ascii_idemp, IH.
Qed.

Section SearchProperties.
Context {F : Type} `{Scalar F} `{!Argsort F}.
Implicit Types (st : Store F) (query : string) (top_n : Z)
  (members idxs res : list nat) (rows : list (list F)) (titles : list string).

(** X1: [search] raises [KeyError] exactly when the cluster it selected has
    no entry in the index; no other failure of a query is a [KeyError]. *)
Theorem search_KeyError_iff st query top_n :
  eval (search query top_n) st = inl KeyError ↔
  ∃ c, eval (selected_cluster query) st = inr c ∧ cluster_index st !! c = None.
Proof.
  split.
  - intros Herr. apply search_inl in Herr as [Hsel | [Hkey | Hother]].
    + by apply selected_cluster_inl in Hsel.
    + destruct Hkey as (c & Hc & Hnone & _). eauto.
    + by destruct Hother as (c & members & _ & _ & [? | ?]).
  - intros (c & Hc & Hnone). by eapply search_missing_entry.
Qed.

(** X2: when the query vector has no column, there is no centroid, or a
    centroid has another dimensionality than the query vector, the cluster
    selection and with it [search] fail with [ValueError]. *)
Theorem search_bad_shape_ValueError st query top_n :
  ¬ shape_ok st query →
  eval (selected_cluster query) st = inl ValueError ∧
  eval (search query top_n) st = inl ValueError.
Proof.
  intros Hshape.
  assert (eval (selected_cluster query) st = inl ValueError) as Hsel.
  { destruct (eval (selected_cluster query) st) as [e | c] eqn:Hc.
    - by rewrite (selected_cluster_inl _ _ _ Hc).
    - by apply selected_cluster_shape in Hc. }
  split; [done |].
  destruct (eval (search query top_n) st) as [e | titles] eqn:Hsearch.
  - apply search_inl in Hsearch as [Hsel' | [Hkey | Hother]].
    + congruence.
    + destruct Hkey as (c & Hc & _). congruence.
    + destruct Hother as (c & members & Hc & _). congruence.
  - apply search_inr in Hsearch as (res & Hres & _).
    apply search_docs_members in Hres as (c & members & Hc & _). congruence.
Qed.

(** X3: a successful [search] read a non-empty cluster and returns as many
    titles as the slice [[-top_n:]] keeps of it: [min top_n size] for
    [top_n >= 1], all of them for [top_n = 0], and all but [-top_n] for
    [top_n < 0].  So the list is empty only for [top_n <= -size]. *)
Theorem search_result_length st query top_n titles :
  eval (search query top_n) st = inr titles →
  ∃ c members,
    eval (selected_cluster query) st = inr c ∧
    cluster_index st !! c = Some members ∧
    members ≠ [] ∧
    length titles
    = (if (0 <? top_n)%Z then Nat.min (Z.to_nat top_n) (length members)
       else length members - Z.to_nat (- top_n)) ∧
    (titles = [] ↔ (top_n ≤ - Z.of_nat (length members))%Z).
Proof.
  intros Hsearch. apply search_inr in Hsearch as (res & Hres & Htitles).
  apply search_docs_members in Hres as (c & members & Hc & Hm & Hne & Hlen).
  apply take_rows_length in Htitles.
  rewrite slice_from_length in Hlen. rewrite <- Htitles in Hlen.
  exists c, members. split_and!; [done | done | done | done |].
  assert (length members ≠ 0) as Hpos by by destruct members.
  rewrite <- length_zero_iff_nil, Hlen.
  destruct (0 <? top_n)%Z eqn:Hn.
  - apply Z.ltb_lt in Hn. lia.
  - apply Z.ltb_ge in Hn. lia.
Qed.

(** X4: the documents [search] returns are the best of the selected
    cluster: a member that is not returned is never more similar to the
    query than a returned one. *)
Theorem search_returns_best st query top_n res :
  eval (search_docs query top_n) st = inr res →
  ∃ c members,
    eval (selected_cluster query) st = inr c ∧
    cluster_index st !! c = Some members ∧
    ∀ d e, d ∈ members → d ∉ res → e ∈ res → ranked_before st query e d.
Proof.
  intros Hres.
  apply search_docs_trace in Hres
    as (c & members & rows & _ & Hc & Hm & Hrows & _ & _ & Hres).
  exists c, members. split_and!; [done | done |].
  intros d e Hd Hnot He.
  set (S := cosine (normalize_row (query_vector st query)) <$> rows) in *.
  destruct (slice_from_drop (- top_n) (argsort S)) as [k Hk]. rewrite Hk in Hres.
  apply take_rows_inr in Hres.
  apply list_elem_of_lookup in Hd as [i Hi].
  apply list_elem_of_lookup in He as [p Hp].
  destruct (Forall2_lookup_r _ _ _ _ _ Hres Hp) as (j & Hj & Hje).
  apply list_elem_of_lookup_2 in Hj. rewrite elem_of_reverse in Hj.
  assert (i ∈ take k (argsort S)) as Hik.
  { assert (i ∈ argsort S) as Hin.
    { rewrite argsort_perm, elem_of_seq. apply lookup_lt_Some in Hi.
      unfold S. rewrite length_fmap, (take_rows_length _ _ _ Hrows). lia. }
    rewrite <- (take_drop k (argsort S)) in Hin.
    apply elem_of_app in Hin as [Hin | Hin]; [done |]. exfalso. apply Hnot.
    apply elem_of_reverse_2, list_elem_of_lookup in Hin as [p' Hp'].
    destruct (Forall2_lookup_l _ _ _ _ _ Hres Hp') as (d' & Hd' & Hid').
    rewrite Hi in Hid'. simplify_eq. by eapply list_elem_of_lookup_2. }
  pose proof (argsort_sorted S) as Hsorted.
  rewrite <- (take_drop k (argsort S)) in Hsorted.
  pose proof (StronglySorted_app_1_elem_of _ _ _ _ _ Hsorted Hik Hj) as Hle.
  unfold key_le in Hle. unfold ranked_before.
  by rewrite <- (key_doc_similarity st query members rows i d),
             <- (key_doc_similarity st query members rows j e).
Qed.

(** X5: with the index built from the labels, no document is returned
    twice. *)
Theorem search_no_duplicates st query top_n res :
  cluster_index st = create_cluster_index (labels_ (kmeans_model st)) →
  eval (search_docs query top_n) st = inr res →
  NoDup res.
Proof.
  intros Hindex Hres.
  apply search_docs_trace in Hres
    as (c & members & rows & _ & _ & Hm & _ & _ & _ & Hres).
  rewrite Hindex in Hm. apply create_cluster_index_Some in Hm as [Hm _].
  assert (NoDup members) as Hnd.
  { rewrite Hm. apply sorted_lt_NoDup, members_of_sorted. }
  apply take_rows_inr in Hres.
  eapply Forall2_NoDup; [| exact Hres | apply slice_NoDup].
  intros i j d Hi Hj. exact (NoDup_lookup _ _ _ _ Hnd Hi Hj).
Qed.

(** X6: asking for fewer results gives the head of the larger answer: if
    [search] succeeds for [top_n = n2], it succeeds for every
    [1 <= n1 <= n2], and returns the first [n1] titles of that answer. *)
Theorem search_prefix st query (n1 n2 : Z) (titles2 : list string) :
  (1 ≤ n1 ≤ n2)%Z →
  eval (search query n2) st = inr titles2 →
  ∃ titles1,
    eval (search query n1) st = inr titles1 ∧
    titles1 = take (Z.to_nat n1) titles2.
Proof.
  intros Hn Hsearch. apply search_inr in Hsearch as (res2 & Hres2 & Htitles2).
  apply search_docs_trace in Hres2
    as (c & members & rows & Hv & Hc & Hm & Hrows & Hne & Hall & Hres2).
  set (S := cosine (normalize_row (query_vector st query)) <$> rows) in *.
  assert (length res2 = Nat.min (Z.to_nat n2) (length S)) as Hlen2.
  { rewrite (take_rows_length _ _ _ Hres2), length_reverse, slice_from_length.
    rewrite argsort_length.
    destruct (0 <? n2)%Z eqn:Hpos; [done | apply Z.ltb_ge in Hpos; lia]. }
  destruct (slice_reverse_prefix n1 n2 (argsort S) Hn) as [more Hmore].
  rewrite Hmore in Hres2.
  apply take_rows_app in Hres2 as (res1 & res' & -> & Hres1 & _).
  apply take_rows_app in Htitles2 as (titles1 & titles' & -> & Htitles1 & Htitles').
  assert (length res1 = Nat.min (Z.to_nat n1) (length S)) as Hlen1.
  { rewrite (take_rows_length _ _ _ Hres1), length_reverse, slice_from_length.
    rewrite argsort_length.
    destruct (0 <? n1)%Z eqn:Hpos; [done | apply Z.ltb_ge in Hpos; lia]. }
  apply take_rows_length in Htitles'. rewrite length_app in Hlen2.
  exists titles1. split.
  - apply search_inr. exists res1. split; [| done].
    apply search_docs_trace. by exists c, members, rows.
  - pose proof (take_rows_length _ _ _ Htitles1) as Hlen.
    destruct (decide (Z.to_nat n1 ≤ length S)) as [Hle | Hgt].
    + rewrite take_app_length'; [done | lia].
    + assert (titles' = []) as -> by (apply length_zero_iff_nil; lia).
      rewrite app_nil_r, take_ge; [done | lia].
Qed.

(** X7: in a fitted state a query fails in one way only: the cluster
    selection always succeeds, and [search] returns unless the selected
    cluster labels no document, in which case it raises [KeyError]. *)
Theorem search_fitted_outcomes st query top_n :
  fitted st →
  ∃ c, eval (selected_cluster query) st = inr c ∧
    ((c ∈ labels_ (kmeans_model st) ∧
      ∃ titles, eval (search query top_n) st = inr titles) ∨
     ((c ∉ labels_ (kmeans_model st)) ∧
      eval (search query top_n) st = inl KeyError)).
Proof.
  intros Hfit. destruct (selected_cluster_fitted st query Hfit) as [c Hc].
  exists c. split; [done |].
  pose proof Hfit as (_ & _ & _ & _ & _ & _ & _ & _ & Hindex).
  destruct (cluster_index st !! c) as [members |] eqn:Hm.
  - left. split.
    + rewrite Hindex in Hm. by apply create_cluster_index_Some in Hm as [_ ?].
    + destruct (search_fitted st query top_n c members Hfit Hc Hm)
        as (_ & _ & titles & _ & _ & _ & _ & Hsearch). eauto.
  - right. split.
    + rewrite Hindex in Hm. by apply create_cluster_index_None in Hm.
    + by eapply search_missing_entry.
Qed.

(** X8: the answer depends on the query only through its lower-cased form:
    lower-casing a query, or replacing it by one that differs in the case
    of ASCII letters only, changes nothing. *)
Theorem search_case_insensitive st query top_n :
  search (lower query) top_n st = search query top_n st ∧
  ∀ query', lower query' = lower query →
            search query' top_n st = search query top_n st.
Proof.
  assert (∀ query', lower query' = lower query →
                    search query' top_n st = search query top_n st) as Hsame.
  { intros query' Hlow. unfold search, rank, vectorize_query. by rewrite Hlow. }
  split; [| done]. apply Hsame, lower_idemp.
Qed.
End SearchProperties.

(** * Further properties of the cluster index *)

Section ClusterIndexProperties.
Implicit Types (clusters members : list nat) (c d : nat).

Lemma members_of_app c clusters1 clusters2 :
  members_of c (clusters1 ++ clusters2)
  = members_of c clusters1
    ++ ((λ d, length clusters1 + d) <$> members_of c clusters2).
Proof.
  induction clusters2 as [| k clusters2 IH] using rev_ind.
  - rewrite app_nil_r. unfold members_of at 3. simpl. by rewrite app_nil_r.
  - rewrite app_assoc, !members_of_snoc, IH, fmap_app, length_app, <- app_assoc.
    by case_decide.
Qed.

(** X9: the keys of the index are exactly the labels that occur, and the
    index is empty only for an empty assignment. *)
Theorem cluster_index_dom clusters :
  dom (create_cluster_index clusters) = list_to_set clusters ∧
  (create_cluster_index clusters = ∅ ↔ clusters = []).
Proof.
  assert (∀ c, is_Some (create_cluster_index clusters !! c) ↔ c ∈ clusters)
    as Hkeys.
  { intros c. split.
    - intros [members Hm]. by apply create_cluster_index_Some in Hm as [_ ?].
    - intros Hc. exists (members_of c clusters).
      by apply create_cluster_index_Some. }
  split.
  - apply set_eq. intros c. by rewrite elem_of_dom, elem_of_list_to_set.
  - split; [| by intros ->].
    intros Hempty. destruct clusters as [| k clusters]; [done |].
    assert (is_Some (create_cluster_index (k :: clusters) !! k)) as [? Hk].
    { apply Hkeys. left. }
    by rewrite Hempty, lookup_empty in Hk.
Qed.

(** X10: indexing an assignment extended by further documents keeps every
    entry and appends the new documents, shifted by the number of old
    ones, to the entries of their clusters. *)
Theorem cluster_index_app clusters1 clusters2 c :
  create_cluster_index (clusters1 ++ clusters2) !! c
  = match create_cluster_index clusters1 !! c,
          create_cluster_index clusters2 !! c with
    | None, None => None
    | old, new =>
        Some (default [] old ++ ((λ d, length clusters1 + d) <$> default [] new))
    end.
Proof.
  rewrite !create_cluster_index_lookup, members_of_app.
  destruct (members_of c clusters1) as [| d1 members1];
    destruct (members_of c clusters2) as [| d2 members2]; by simpl.
Qed.
End ClusterIndexProperties.

(** * Properties of the loader *)

Section Loader.
Implicit Types (articles : list (gmap string jvalue))
  (article : gmap string jvalue) (texts titles : list string).



Lemma load_step_inr texts titles article acc :
  load_step (texts, titles) article = inr acc ↔
  ∃ title text,
    article_of title text article ∧
    acc = (texts ++ [String.append (String.append title " ") text],
           titles ++ [title]).
Proof.
  unfold load_step, article_of, field. split.
  - destruct (article !! "title"%string) as [[title |] |]; simpl; try done.
    destruct (article !! "text"%string) as [[text |] |]; simpl; try done.
    intros [= <-]. by exists title, text.
  - intros (title & text & [-> ->] & ->). done.
Qed.

Lemma load_loop_inr articles texts0 titles0 texts titles :
  load_loop (texts0, titles0) articles = inr (texts, titles) ↔
  ∃ recs : list (string * string),
    Forall2 (λ article r, article_of r.1 r.2 article) articles recs ∧
    texts = texts0 ++ ((λ r, String.append (String.append r.1 " ") r.2) <$> recs) ∧
    titles = titles0 ++ (fst <$> recs).
Proof.
  revert texts0 titles0.
  induction articles as [| article articles IH]; intros texts0 titles0;
    cbn [load_loop].
  - split.
    + intros [= <- <-]. exists []. by rewrite !app_nil_r.
    + intros (recs & Hrecs & -> & ->). inversion Hrecs; subst.
      simpl. by rewrite !app_nil_r.
  - destruct (load_step (texts0, titles0) article) as [e | acc] eqn:Hstep; simpl.
    + split; [done |]. intros (recs & Hrecs & _). exfalso.
      inversion Hrecs as [| ? [title text] ? recs' Hart Hrest]; subst.
      assert (load_step (texts0, titles0) article
              = inr (texts0 ++ [String.append (String.append title " ") text],
                     titles0 ++ [title])) as Hok.
      { apply load_step_inr. by exists title, text. }
      congruence.
    + apply load_step_inr in Hstep as (title & text & Hart & ->).
      rewrite IH. split.
      * intros (recs & Hrecs & -> & ->). exists ((title, text) :: recs).
        split_and!; [by constructor | |]; simpl; by rewrite <- app_assoc.
      * intros (recs & Hrecs & -> & ->).
        inversion Hrecs as [| ? [title' text'] ? recs' Hart' Hrest]; subst.
        destruct Hart as [Ht Hx], Hart' as [Ht' Hx']. simpl in *.
        rewrite Ht in Ht'. rewrite Hx in Hx'. simplify_eq.
        exists recs'. split_and!; [done | |]; simpl; by rewrite <- app_assoc.
Qed.


(** X11: when [load_and_preprocess] returns, it returns a text and a title
    for every line, in the order of the lines: the title at position [i] is
    the title of line [i], and the text at position [i] is that title, a
    space and the text of line [i]. *)
Theorem load_aligns_titles_and_texts articles texts titles :
  load_and_preprocess articles = inr (texts, titles) →
  length texts = length articles ∧
  length titles = length articles ∧
  ∀ i article, articles !! i = Some article →
    ∃ title text,
      article_of title text article ∧
      titles !! i = Some title ∧
      texts !! i = Some (String.append (String.append title " ") text).
Proof.
  unfold load_and_preprocess. rewrite load_loop_inr.
  intros (recs & Hrecs & -> & ->). simpl.
  rewrite !length_fmap, (Forall2_length _ _ _ Hrecs).
  split_and!; [done | done |].
  intros i article Hi.
  destruct (Forall2_lookup_l _ _ _ _ _ Hrecs Hi) as ([title text] & Hrec & Hart).
  exists title, text. split_and!; [done | |].
  - by rewrite list_lookup_fmap, Hrec.
  - by rewrite list_lookup_fmap, Hrec.
Qed.

End Loader.

(** * The notebook's cells establish a fitted state *)

Section PipelineProperties.
Context {F : Type} `{Scalar F}.

Lemma normalize_inr (X X' : list (list F)) :
  normalize X = inr X' →
  X' = normalize_row <$> X ∧ X ≠ [] ∧ ncols X ≠ 0 ∧
  Forall (λ r, length r = ncols X) X.
Proof.
  unfold normalize. destruct (check_array X) as [e | X0] eqn:HX; simpl; [done |].
  apply check_array_inr in HX as (-> & Hne & Hcols & Hall).
  by intros [= <-].
Qed.

Lemma ncols_normalize (X : list (list F)) :
  ncols (normalize_row <$> X) = ncols X.
Proof. destruct X as [| r X]; simpl; [done | apply normalize_row_length]. Qed.

(** The cells after the loader, given a title per text. *)
Lemma fit_index_shapes fit_transform kmeans_fit
    (texts titles : list string) (st : Store F) :
  vectorizer_contract fit_transform →
  kmeans_contract kmeans_fit →
  length titles = length texts →
  fit_index fit_transform kmeans_fit texts titles = inr st →
  fitted st ∧
  articles_titles st = titles ∧
  length (normalized_vectors st) = length texts.
Proof.
  intros Hvec Hkm Hlen. unfold fit_index.
  destruct (fit_transform texts) as [e | [transform matrix]] eqn:Hfit;
    simpl; [done |].
  destruct (normalize matrix) as [e | vectors] eqn:Hnorm; simpl; [done |].
  destruct (kmeans_fit vectors) as [e | kmeans] eqn:Hkmeans; simpl; [done |].
  intros [= <-]. simpl.
  destruct (Hvec _ _ _ Hfit) as [Hrows Hquery].
  destruct (Hkm _ _ Hkmeans) as (Hlabels & Hne & Hcenters).
  apply normalize_inr in Hnorm as (-> & _ & Hcols & Hall).
  rewrite ncols_normalize in Hcenters. rewrite length_fmap in Hlabels |- *.
  split_and!; [| done | done].
  exists (ncols matrix). simpl. rewrite length_fmap.
  split_and!; [done | done | | done | done | done | congruence | done].
  apply Forall_fmap. eapply Forall_impl; [exact Hall |].
  intros r Hr. simpl. by rewrite normalize_row_length.
Qed.

(** X13: the cells run in sequence: when the loader returns and the fits
    succeed, with the vectorizer and the clustering keeping their
    contracts, the state handed to [search] is a fitted state (one
    dimensionality for queries, documents and centroids, a label and a
    title per document, the index of the labels) with a document and a
    title per line of the archive. *)
Theorem notebook_state_fitted fit_transform kmeans_fit
    (articles : list (gmap string jvalue))
    (texts titles : list string) (st : Store F) :
  vectorizer_contract fit_transform →
  kmeans_contract kmeans_fit →
  load_and_preprocess articles = inr (texts, titles) →
  fit_index fit_transform kmeans_fit texts titles = inr st →
  fitted st ∧
  articles_titles st = titles ∧
  length (articles_titles st) = length articles ∧
  length (normalized_vectors st) = length articles.
Proof.
  intros Hvec Hkm Hload Hfit.
  unfold load_and_preprocess in Hload.
  apply load_loop_inr in Hload as (recs & Hrecs & -> & ->). simpl in *.
  apply Forall2_length in Hrecs.
  assert (length recs.*1
          = length ((λ r : string * string,
                       String.append (String.append r.1 " ") r.2) <$> recs))
    as Hlen by by rewrite !length_fmap.
  destruct (fit_index_shapes _ _ _ _ _ Hvec Hkm Hlen Hfit)
    as (Hfitted & Htitles & Hvectors).
  rewrite length_fmap in Hvectors.
  split_and!; [done | done | | congruence].
  by rewrite Htitles, length_fmap.
Qed.
End PipelineProperties.

(** * The two corpora, run *)

#[local] Existing Instance stable_Argsort.
#[local] Open Scope string_scope.

Lemma toy_vectorizer_length (text : string) : length (toy_vectorizer text) = 2.
Proof. unfold toy_vectorizer. by repeat case_match. Qed.

Lemma two_topic_store_fitted : fitted two_topic_store.
Proof.
  exists 2. split_and!; try done.
  - apply toy_vectorizer_length.
  - by repeat constructor.
  - by repeat constructor.
Qed.

Lemma one_sided_store_fitted : fitted one_sided_store.
Proof.
  exists 2. split_and!; try done.
  - apply toy_vectorizer_length.
  - by repeat constructor.
  - by repeat constructor.
Qed.

Example two_topic_index :
  map_to_list (create_cluster_index [0; 0; 1]) = [(1, [2]); (0, [0; 1])].
Proof. vm_compute. reflexivity. Qed.

Example search_cat : eval (search "Cat" 1) two_topic_store = inr ["Dog"].
Proof. vm_compute. reflexivity. Qed.

Example search_graded :
  eval (search_docs "cat" 3) graded_store = inr [1; 2; 0] ∧
  eval (search "cat" 2) graded_store = inr ["Cat"; "Pet shop"].
Proof. split; vm_compute; reflexivity. Qed.

Example search_negative_top_n :
  eval (search "cat" (-1)) two_topic_store = inr ["Dog"].
Proof. vm_compute. reflexivity. Qed.

(** * Witnesses and counterexamples *)

Lemma search_within_selected_cluster_witness :
  ∃ c members res,
    eval (selected_cluster "cat") two_topic_store = inr c ∧
    cluster_index two_topic_store !! c = Some members ∧
    eval (search_docs "cat" 2) two_topic_store = inr res ∧
    take_rows (articles_titles two_topic_store) res = inr ["Dog"; "Cat"] ∧
    (∀ d, d ∈ res → d ∈ members) ∧
    (cluster_index two_topic_store
     = create_cluster_index (labels_ (kmeans_model two_topic_store)) →
     ∀ d c', labels_ (kmeans_model two_topic_store) !! d = Some c' →
             c' ≠ c → d ∉ res).
Proof.
  apply (search_within_selected_cluster two_topic_store "cat" 2 ["Dog"; "Cat"]).
  vm_compute. reflexivity.
Defined.

(** C2 fails on the code: a query with no known term gets a non-empty
    ranked list, the members of cluster 0. *)
Lemma zero_query_gets_results :
  all_zero (query_vector two_topic_store "zebra") ∧
  eval (search "zebra" 5) two_topic_store = inr ["Dog"; "Cat"].
Proof.
  split.
  - repeat constructor.
  - vm_compute. reflexivity.
Qed.

Lemma search_zero_query_witness :
  eval (selected_cluster "zebra") two_topic_store = inr 0 ∧
  (∀ members, cluster_index two_topic_store !! 0 = Some members → (1 ≤ 5)%Z →
     ∃ titles, eval (search "zebra" 5) two_topic_store = inr titles ∧
               titles ≠ [] ∧
               length titles = Nat.min (Z.to_nat 5) (length members)) ∧
  (cluster_index two_topic_store !! 0 = None →
   eval (search "zebra" 5) two_topic_store = inl KeyError).
Proof.
  apply (search_zero_query two_topic_store "zebra" 5).
  - apply two_topic_store_fitted.
  - repeat constructor.
Defined.

(** C3 fails on the code: cluster 0 of two received no document; looking it
    up raises [KeyError], and so does the query that selects it. *)
Lemma empty_cluster_lookup_fails :
  0 < length (cluster_centers_ (kmeans_model one_sided_store)) ∧
  (0 ∉ labels_ (kmeans_model one_sided_store)) ∧
  eval (docs_in_cluster 0) one_sided_store = inl KeyError ∧
  eval (selected_cluster "cat") one_sided_store = inr 0 ∧
  eval (search "cat" 1) one_sided_store = inl KeyError.
Proof.
  split_and!.
  - simpl. lia.
  - simpl. intros Hin.
    repeat (apply elem_of_cons in Hin as [? | Hin]; [done |]).
    by apply not_elem_of_nil in Hin.
  - vm_compute. reflexivity.
  - vm_compute. reflexivity.
  - vm_compute. reflexivity.
Qed.

Lemma cluster_lookup_needs_members_witness :
  (0 ∈ labels_ (kmeans_model one_sided_store) →
     ∃ members, eval (docs_in_cluster 0) one_sided_store = inr members ∧
                members ≠ []) ∧
  (0 ∉ labels_ (kmeans_model one_sided_store) →
     eval (docs_in_cluster 0) one_sided_store = inl KeyError ∧
     ∀ query top_n, eval (selected_cluster query) one_sided_store = inr 0 →
                    eval (search query top_n) one_sided_store = inl KeyError).
Proof.
  apply (cluster_lookup_needs_members one_sided_store 0). reflexivity.
Defined.

(** C4 fails on the code: the two animal documents are equally similar to
    the query, and the one with the greater index comes first. *)
Lemma tie_broken_by_descending_index :
  doc_similarity two_topic_store "cat" 0 = doc_similarity two_topic_store "cat" 1 ∧
  eval (search_docs "cat" 2) two_topic_store = inr [1; 0] ∧
  eval (search "cat" 2) two_topic_store = inr ["Dog"; "Cat"].
Proof.
  split_and!.
  - reflexivity.
  - vm_compute. reflexivity.
  - vm_compute. reflexivity.
Qed.

Lemma search_sorted_and_truncated_witness :
  StronglySorted (ranked_before two_topic_store "cat") [1] ∧
  (length [1] ≤ Z.to_nat 1)%nat ∧
  ∃ c members,
    eval (selected_cluster "cat") two_topic_store = inr c ∧
    cluster_index two_topic_store !! c = Some members ∧
    length [1] = Nat.min (Z.to_nat 1) (length members).
Proof.
  apply (search_sorted_and_truncated two_topic_store "cat" 1 [1]).
  - lia.
  - vm_compute. reflexivity.
Defined.

(** C5 fails on the code: the all-zero row comes back as it is, and no
    error is raised. *)
Lemma normalize_keeps_zero_row :
  all_zero [q 0; q 0] ∧ normalize [[q 0; q 0]] = inr [[q 0; q 0]].
Proof.
  split.
  - repeat constructor.
  - vm_compute. reflexivity.
Qed.

Lemma normalize_divides_or_keeps_witness :
  ∃ v', normalize [[q 3; q 4]] = inr [v'] ∧
    (dot [q 3; q 4] [q 3; q 4] ≠ fzero →
     v' = (λ x, fdiv x (fsqrt (dot [q 3; q 4] [q 3; q 4]))) <$> [q 3; q 4]) ∧
    (all_zero [q 3; q 4] → v' = [q 3; q 4]).
Proof.
  apply (normalize_divides_or_keeps [q 3; q 4]). discriminate.
Defined.

Example normalize_3_4 :
  this <$> normalize_row [q 3; q 4] = [(3 # 5)%Q; (4 # 5)%Q].
Proof. vm_compute. reflexivity. Qed.

Lemma search_selects_first_best_centroid_witness :
  ∃ c top,
    eval (selected_cluster "stock") two_topic_store = inr c ∧
    c < length (cluster_centers_ (kmeans_model two_topic_store)) ∧
    centroid_similarities two_topic_store "stock" !! c = Some top ∧
    (∀ j s, centroid_similarities two_topic_store "stock" !! j = Some s →
            fleb s top = true) ∧
    (∀ j s, centroid_similarities two_topic_store "stock" !! j = Some s →
            j < c → fltb s top = true).
Proof.
  apply (search_selects_first_best_centroid two_topic_store "stock").
  - discriminate.
  - discriminate.
  - by repeat constructor.
Defined.

Example selected_cluster_stock :
  eval (selected_cluster "stock") two_topic_store = inr 1.
Proof. vm_compute. reflexivity. Qed.

(** C8 fails on the code: cluster 0 is selected and has no member, so
    [top_n = 1] exceeds its size; [search] raises [KeyError] instead of
    returning the empty list. *)
Lemma whole_cluster_fails_when_empty :
  eval (selected_cluster "cat") one_sided_store = inr 0 ∧
  members_of 0 (labels_ (kmeans_model one_sided_store)) = [] ∧
  (Z.of_nat 0 < 1)%Z ∧
  eval (search "cat" 1) one_sided_store = inl KeyError.
Proof.
  split_and!.
  - vm_compute. reflexivity.
  - vm_compute. reflexivity.
  - lia.
  - vm_compute. reflexivity.
Qed.

Lemma search_returns_whole_cluster_witness :
  ∃ res titles,
    eval (search_docs "cat" 10) two_topic_store = inr res ∧
    eval (search "cat" 10) two_topic_store = inr titles ∧
    take_rows (articles_titles two_topic_store) res = inr titles ∧
    res ≡ₚ [0; 1] ∧
    length titles = length [0; 1].
Proof.
  apply (search_returns_whole_cluster two_topic_store "cat" 10 0 [0; 1]).
  - apply two_topic_store_fitted.
  - vm_compute. reflexivity.
  - vm_compute. reflexivity.
  - simpl. lia.
Defined.

Lemma search_top_zero_returns_all_witness :
  ∃ res titles,
    eval (search_docs "cat" 0) two_topic_store = inr res ∧
    eval (search "cat" 0) two_topic_store = inr titles ∧
    take_rows (articles_titles two_topic_store) res = inr titles ∧
    res ≡ₚ [0; 1] ∧
    StronglySorted (ranked_before two_topic_store "cat") res ∧
    titles ≠ [].
Proof.
  apply (search_top_zero_returns_all two_topic_store "cat" 0 [0; 1]).
  - apply two_topic_store_fitted.
  - vm_compute. reflexivity.
  - vm_compute. reflexivity.
Defined.

Example search_top_zero :
  eval (search "cat" 0) two_topic_store = inr ["Dog"; "Cat"].
Proof. vm_compute. reflexivity. Qed.

(** * Witnesses of the further properties *)

Lemma mismatched_store_shape : ¬ shape_ok mismatched_store "cat".
Proof.
  intros (_ & _ & Hall). apply Forall_cons in Hall as [Hlen _].
  vm_compute in Hlen. discriminate.
Qed.

Lemma search_bad_shape_ValueError_witness :
  eval (selected_cluster "cat") mismatched_store = inl ValueError ∧
  eval (search "cat" 1) mismatched_store = inl ValueError.
Proof.
  apply (search_bad_shape_ValueError mismatched_store "cat" 1).
  apply mismatched_store_shape.
Defined.

Lemma search_result_length_witness :
  ∃ c members,
    eval (selected_cluster "cat") two_topic_store = inr c ∧
    cluster_index two_topic_store !! c = Some members ∧
    members ≠ [] ∧
    length ["Dog"]
    = (if (0 <? -1)%Z then Nat.min (Z.to_nat (-1)) (length members)
       else length members - Z.to_nat (- -1)) ∧
    (["Dog"] = [] ↔ (-1 ≤ - Z.of_nat (length members))%Z).
Proof.
  apply (search_result_length two_topic_store "cat" (-1) ["Dog"]).
  vm_compute. reflexivity.
Defined.

Example search_drops_everything :
  eval (search "cat" (-2)) two_topic_store = inr [].
Proof. vm_compute. reflexivity. Qed.

Lemma search_returns_best_witness :
  ∃ c members,
    eval (selected_cluster "cat") graded_store = inr c ∧
    cluster_index graded_store !! c = Some members ∧
    ∀ d e, d ∈ members → d ∉ [1] → e ∈ [1] → ranked_before graded_store "cat" e d.
Proof.
  apply (search_returns_best graded_store "cat" 1 [1]).
  vm_compute. reflexivity.
Defined.

Lemma search_no_duplicates_witness : NoDup [1; 0].
Proof.
  apply (search_no_duplicates two_topic_store "cat" 2 [1; 0]).
  - reflexivity.
  - vm_compute. reflexivity.
Defined.

Lemma search_prefix_witness :
  ∃ titles1,
    eval (search "cat" 1) graded_store = inr titles1 ∧
    titles1 = take (Z.to_nat 1) ["Cat"; "Pet shop"; "Bank"].
Proof.
  apply (search_prefix graded_store "cat" 1 3 ["Cat"; "Pet shop"; "Bank"]).
  - lia.
  - vm_compute. reflexivity.
Defined.

Example search_upper_case :
  eval (search "CAT" 2) two_topic_store = eval (search "cat" 2) two_topic_store.
Proof. vm_compute. reflexivity. Qed.

Lemma load_aligns_titles_and_texts_witness :
  length ["Cat cat pet"; "Bank stock market"] = length [cat_article; bank_article] ∧
  length ["Cat"; "Bank"] = length [cat_article; bank_article] ∧
  ∀ i article, [cat_article; bank_article] !! i = Some article →
    ∃ title text,
      article_of title text article ∧
      ["Cat"; "Bank"] !! i = Some title ∧
      ["Cat cat pet"; "Bank stock market"] !! i
      = Some (String.append (String.append title " ") text).
Proof.
  apply (load_aligns_titles_and_texts [cat_article; bank_article]
           ["Cat cat pet"; "Bank stock market"] ["Cat"; "Bank"]).
  vm_compute. reflexivity.
Defined.

Example load_stops_at_stub :
  load_and_preprocess [cat_article; stub_article; bank_article] = inl MissingKey.
Proof. vm_compute. reflexivity. Qed.

Lemma toy_vectorizer_contract : vectorizer_contract toy_fit_transform.
Proof.
  intros texts transform matrix. unfold toy_fit_transform.
  destruct texts as [| text0 texts]; [done |]. intros [= <- <-].
  split; [simpl; f_equal; apply length_fmap |].
  intros text. simpl. by rewrite !toy_vectorizer_length.
Qed.

Lemma toy_kmeans_contract : kmeans_contract toy_kmeans_fit.
Proof.
  intros X kmeans. unfold toy_kmeans_fit.
  destruct (ncols X =? 2)%nat eqn:Hcols; [| done]. intros [= <-]. simpl.
  apply Nat.eqb_eq in Hcols. rewrite length_fmap, Hcols.
  split_and!; [done | done | by repeat constructor].
Qed.

Lemma notebook_state_fitted_witness :
  ∃ st,
    fit_index toy_fit_transform toy_kmeans_fit
      ["Cat cat pet"; "Bank stock market"] ["Cat"; "Bank"] = inr st ∧
    fitted st ∧
    articles_titles st = ["Cat"; "Bank"] ∧
    length (articles_titles st) = length [cat_article; bank_article] ∧
    length (normalized_vectors st) = length [cat_article; bank_article].
Proof.
  destruct (fit_index toy_fit_transform toy_kmeans_fit
              ["Cat cat pet"; "Bank stock market"] ["Cat"; "Bank"])
    as [e | st] eqn:Hfit.
  - vm_compute in Hfit. discriminate.
  - exists st. split; [reflexivity |].
    apply (notebook_state_fitted toy_fit_transform toy_kmeans_fit
             [cat_article; bank_article]
             ["Cat cat pet"; "Bank stock market"] ["Cat"; "Bank"] st).
    + apply toy_vectorizer_contract.
    + apply toy_kmeans_contract.
    + vm_compute. reflexivity.
    + exact Hfit.
Defined.

Lemma search_fitted_outcomes_witness :
  ∃ c, eval (selected_cluster "cat") one_sided_store = inr c ∧
    ((c ∈ labels_ (kmeans_model one_sided_store) ∧
      ∃ titles, eval (search "cat" 3) one_sided_store = inr titles) ∨
     ((c ∉ labels_ (kmeans_model one_sided_store)) ∧
      eval (search "cat" 3) one_sided_store = inl KeyError)).
Proof.
  apply (search_fitted_outcomes one_sided_store "cat" 3).
  apply one_sided_store_fitted.
Defined.
